(** * The scrcpy WebSocket bridge ([src/scrcpy_ws_bridge.py])

    A shallow embedding of the parts of [ScrcpyBridge] that frame the H.264
    byte stream into NAL units, classify the units, turn pointer events into
    tap and swipe commands, replay cached units to late joiners, route the
    control messages of the viewers and serialise the chat turns.

    Python [bytes] and [bytearray] values are lists of integers in 0..255,
    Python [float]s are binary64 primitive floats, the dictionaries and sets
    keyed by connection handles are finite maps and sets over handle
    numbers. *)

From Stdlib Require Import ZArith Lia Floats String.
From stdpp Require Import base list gmap sets strings.

Set Warnings "-inexact-float,-clear-no-such-hyp,-register-all".

Open Scope Z_scope.

(** ** Framing of the elementary stream *)

Module Nal.

(** [buf[a:b]] for [0 <= a]; Python clips both ends to the length. *)
Definition slice (buf : list Z) (a b : nat) : list Z :=
  take (b - a) (drop a buf).

(** [b'\x00\x00\x00\x01'] and [b'\x00\x00\x01'] *)
Definition START4 : list Z := [0; 0; 0; 1].
Definition START3 : list Z := [0; 0; 1].

(** The [while i < len(buf) - 3] loop of [_extract_nal_units].  [fuel]
    bounds the number of iterations; [i] grows at each one, so
    [length buf] iterations always suffice.  The pairs are produced in the
    order in which the loop appends them to [start_positions]. *)
Fixpoint scan_loop (fuel : nat) (buf : list Z) (i : nat) : list (nat * nat) :=
  match fuel with
  | O => []
  | S fuel' =>
      if (i + 3 <? length buf)%nat then
        if bool_decide (slice buf i (i + 4) = START4) then
          (i, 4%nat) :: scan_loop fuel' buf (i + 4)
        else if bool_decide (slice buf i (i + 3) = START3) then
          (i, 3%nat) :: scan_loop fuel' buf (i + 3)
        else scan_loop fuel' buf (i + 1)
      else []
  end.

Definition start_positions (buf : list Z) : list (nat * nat) :=
  scan_loop (length buf) buf 0.

(** [_extract_nal_units]: the units returned and the new [_nal_buffer]. *)
Definition _extract_nal_units (buf : list Z) : list (list Z) * list Z :=
  let sp := start_positions buf in
  if (length sp <? 2)%nat then ([], buf)
  else
    let nal_units :=
      map (fun idx =>
             let start_pos := fst (nth idx sp (0, 0)%nat) in
             let next_start_pos := fst (nth (idx + 1) sp (0, 0)%nat) in
             slice buf start_pos next_start_pos)
          (seq 0 (length sp - 1)) in
    let last_start_pos := fst (List.last sp (0, 0)%nat) in
    (nal_units, drop last_start_pos buf).

(** One ingestion of [_video_stream_loop]:
    [self._nal_buffer.extend(data)] followed by [_extract_nal_units()]. *)
Definition ingest (buf data : list Z) : list (list Z) * list Z :=
  _extract_nal_units (buf ++ data).

(** Successive ingestions; all the units yielded, in order, and the buffer
    left at the end. *)
Fixpoint feed (buf : list Z) (chunks : list (list Z)) : list (list Z) * list Z :=
  match chunks with
  | [] => ([], buf)
  | data :: rest =>
      let '(us, buf') := ingest buf data in
      let '(us', buf'') := feed buf' rest in
      (us ++ us', buf'')
  end.

(** [_get_nal_type] *)
Definition _get_nal_type (data : list Z) : Z :=
  if (length data <? 5)%nat then -1
  else if bool_decide (slice data 0 4 = START4) then Z.land (nth 4 data 0) 31
  else if bool_decide (slice data 0 3 = START3) then Z.land (nth 3 data 0) 31
  else -1.

Definition _is_sps (data : list Z) : bool := _get_nal_type data =? 7.
Definition _is_pps (data : list Z) : bool := _get_nal_type data =? 8.
Definition _is_keyframe (data : list Z) : bool := _get_nal_type data =? 5.

(** The loop of [_extract_nal_units] started at index [i], with fuel enough
    for it to run to its end. *)
Definition scan (buf : list Z) (i : nat) : list (nat * nat) :=
  scan_loop (length buf) buf i.

(** A start position of [drop p buf], as a position of [buf]. *)
Definition shift (p : nat) (q : nat * nat) : nat * nat := ((p + q.1)%nat, q.2).

(** The slices between consecutive start positions. *)
Fixpoint units_between (buf : list Z) (sp : list (nat * nat)) : list (list Z) :=
  match sp with
  | p :: rest =>
      match rest with
      | q :: _ => slice buf p.1 q.1 :: units_between buf rest
      | [] => []
      end
  | [] => []
  end.

(** The marker of length [l]. *)
Definition marker_of (l : nat) : list Z :=
  if (l =? 4)%nat then START4 else START3.

(** Successive start positions do not overlap. *)
Fixpoint spaced (i : nat) (sp : list (nat * nat)) : Prop :=
  match sp with
  | [] => True
  | q :: rest => (i ≤ q.1)%nat ∧ spaced (q.1 + q.2) rest
  end.

(** The start markers of a byte sequence, as the specification counts
    them.  Every 4-byte marker ends with the 3-byte one and two occurrences
    of [00 00 01] cannot overlap, so the start markers of a sequence are
    the occurrences of [00 00 01] in it. *)
Definition marker_at (buf : list Z) (q : nat) : bool :=
  bool_decide (slice buf q (q + 3) = START3).

(** The number of start markers at the positions from [i] on. *)
Definition markers_from (buf : list Z) (i : nat) : nat :=
  length (List.filter (marker_at buf) (seq i (length buf - i))).

Definition marker_count (buf : list Z) : nat := markers_from buf 0.

(** The sequence ends with a 3-byte marker that no zero byte precedes. *)
Definition ends_with_short_marker (buf : list Z) : bool :=
  bool_decide (slice buf (length buf - 3) (length buf) = START3)
  && negb (bool_decide (slice buf (length buf - 4) (length buf) = START4)).

(** What the scan started at [i] leaves uncounted: a 3-byte marker on
    the last three bytes, unless a 4-byte marker is found one byte before. *)
Definition pending (buf : list Z) (i : nat) : nat :=
  if marker_at buf (length buf - 3)
     && (i + 3 <=? length buf)%nat
     && ((i + 3 =? length buf)%nat
         || negb (bool_decide (buf !! (length buf - 4)%nat = Some 0)))
  then 1%nat else 0%nat.

(** The [while i < len(data) - 4] loop of [_get_nal_types]; [fuel] bounds
    the number of iterations, of which [length data] always suffice. *)
Fixpoint types_loop (fuel : nat) (data : list Z) (i : nat) (nal_types : gset Z)
    : gset Z :=
  match fuel with
  | O => nal_types
  | S fuel' =>
      if (i + 4 <? length data)%nat then
        if (bool_decide (slice data i (i + 3) = START3)
            || bool_decide (slice data i (i + 4) = START4))%bool then
          let start_len :=
            if bool_decide (slice data i (i + 3) = START3) then 3%nat else 4%nat in
          let nal_types :=
            if (i + start_len <? length data)%nat then
              {[ Z.land (nth (i + start_len) data 0) 31 ]} ∪ nal_types
            else nal_types in
          types_loop fuel' data (i + start_len) nal_types
        else types_loop fuel' data (i + 1) nal_types
      else nal_types
  end.

(** [_get_nal_types] *)
Definition _get_nal_types (data : list Z) : gset Z :=
  if (length data <? 5)%nat then ∅
  else types_loop (length data) data 0 ∅.

End Nal.

(** ** The bridge: viewers, pointer events and control messages *)

Module Bridge.

(** [TouchState]: the pointer-down a viewer has not resolved yet. *)
Record TouchState := {
  start_pos : option (float * float);
  start_time : float;
}.

Record DeviceInfo := {
  name : string;
  width : Z;
  height : Z;
  serial : string;
}.

(** The fields of [ScrcpyBridge] the modelled methods read or write.
    Connection handles are numbers.  [_agent] tells whether [self._agent]
    is set (the agent itself lives outside the bridge), [_chat_cancelled]
    whether the event of that name is set. *)
Record bridge := {
  device_info : option DeviceInfo;
  clients : gset nat;
  _sps : option (list Z);
  _pps : option (list Z);
  _last_keyframe : option (list Z);
  _nal_buffer : list Z;
  _physical_width : Z;
  _physical_height : Z;
  _touch_states : gmap nat TouchState;
  _agent : bool;
  _chat_cancelled : bool;
}.

Definition SWIPE_DISTANCE_THRESHOLD : float := 0.03.
Definition SWIPE_VELOCITY_THRESHOLD : float := 0.3.
Definition SWIPE_MAX_TAP_DURATION : float := 0.4.
Definition TOUCH_TIMEOUT : float := 5.0.

(** Values produced by [json.loads]; an object keeps its members in
    document order. *)
Inductive json :=
  | JNull
  | JBool (b : bool)
  | JInt (z : Z)
  | JFloat (f : float)
  | JStr (s : string)
  | JArr (items : list json)
  | JObj (members : list (string * json)).

(** The exceptions the modelled code can raise; [OtherError] is an
    exception of any other class, by the name of the class. *)
Inductive py_exn :=
  | JSONDecodeError | KeyError | AttributeError | TypeError | ValueError
  | OverflowError | RecursionError | UnicodeDecodeError | TimeoutError
  | ConnectionClosed | OtherError (name : string).

(** Commands passed to [self.device.shell]. *)
Inductive shell_cmd :=
  | WmSize
  | InputTap (x y : Z)
  | InputSwipe (x1 y1 x2 y2 ms : Z)
  | InputKeyevent (keycode : json).

Inductive log_level := Info | Warning | Error.

(** The log statements, by what they report. *)
Inductive log_msg :=
  | ReceivedControlMessage | TouchEvent | InvalidControlMessage
  | InvalidTouchCoordinates | PhysicalScreenSize | TouchCancelled
  | SentSwipe | SentTap | FailedToSendTouch | SentKey | FailedToSendKey
  | ButtonPressed | ChatMessageReceived | CancelRequested | NewSessionRequested
  | SentCachedSps | SentCachedPps | SentCachedKeyframe
  | CachedSps | CachedPps | FailedToSendToClient
  | ClientConnected | ClientDisconnected
  | AgentInitialized | FailedToInitializeAgent.

(** What a viewer is sent. *)
Inductive message :=
  | MsgDeviceInfo (info : DeviceInfo)
  | MsgBinary (data : list Z)
  | MsgSessionCleared.

(** What the methods do to the outside, in the order they do it. *)
Inductive effect :=
  | Shell (cmd : shell_cmd)
  | Log (level : log_level) (what : log_msg)
  | Send (client : nat) (m : message)
  | CreateChatTask (client : nat) (user_message : json)
  | SetChatCancelled
  | AgentInterrupt
  | AgentClearSession.

(** What the handling of a message gets from the outside:
    [screen] is what [_query_physical_screen_size] returns, [clock k] what
    the call number [k] of [time()] returns, [shell_ok] tells whether
    [self.device.shell] returns rather than raises; [half_power d] is what
    [d ** 0.5] evaluates to, the C library's [pow(d, 0.5)], of which
    nothing is assumed (it need not be the correctly rounded square root);
    [agent_init], [interrupt_sync], [clear_session] and [client_send] are
    the exceptions that creating the agent, [agent.interrupt_sync()],
    [agent.clear_session(...)] and [client.send(...)] raise, if any. *)
Record env := {
  screen : Z * Z;
  clock : nat → float;
  shell_ok : bool;
  half_power : float → float;
  agent_init : option py_exn;
  interrupt_sync : option py_exn;
  clear_session : option py_exn;
  client_send : option py_exn;
}.

(** [float(z)], correctly rounded; Python raises [OverflowError] where
    this is infinite. *)
Definition float_of_int (z : Z) : float :=
  SF2Prim (SpecFloat.binary_normalize prec emax z 0 false).

(** [int(f)], truncation towards zero, for a finite [f]. *)
Definition int_of_float (f : float) : Z :=
  match Prim2SF f with
  | S754_finite s m e =>
      let v := if 0 <=? e then Z.shiftl (Z.pos m) e else Z.shiftr (Z.pos m) (- e) in
      if s then - v else v
  | _ => 0
  end.

(** [j == s] for a string literal [s] *)
Definition is_str (j : json) (s : string) : bool :=
  match j with
  | JStr t => bool_decide (t = s)
  | _ => false
  end.

(** [0.0 <= x <= 1.0] *)
Definition in_unit (x : float) : bool :=
  (PrimFloat.leb 0.0 x && PrimFloat.leb x 1.0)%bool.

Definition set_physical (st : bridge) (wh : Z * Z) : bridge :=
  {| device_info := device_info st; clients := clients st; _sps := _sps st;
     _pps := _pps st; _last_keyframe := _last_keyframe st;
     _nal_buffer := _nal_buffer st;
     _physical_width := wh.1; _physical_height := wh.2;
     _touch_states := _touch_states st;
     _agent := _agent st; _chat_cancelled := _chat_cancelled st |}.

Definition set_touch_states (st : bridge) (ts : gmap nat TouchState) : bridge :=
  {| device_info := device_info st; clients := clients st; _sps := _sps st;
     _pps := _pps st; _last_keyframe := _last_keyframe st;
     _nal_buffer := _nal_buffer st;
     _physical_width := _physical_width st;
     _physical_height := _physical_height st;
     _touch_states := ts;
     _agent := _agent st; _chat_cancelled := _chat_cancelled st |}.

Definition set_clients (st : bridge) (cs : gset nat) : bridge :=
  {| device_info := device_info st; clients := cs; _sps := _sps st;
     _pps := _pps st; _last_keyframe := _last_keyframe st;
     _nal_buffer := _nal_buffer st;
     _physical_width := _physical_width st;
     _physical_height := _physical_height st;
     _touch_states := _touch_states st;
     _agent := _agent st; _chat_cancelled := _chat_cancelled st |}.

Definition set_cache (st : bridge) (sps pps kf : option (list Z)) : bridge :=
  {| device_info := device_info st; clients := clients st; _sps := sps;
     _pps := pps; _last_keyframe := kf;
     _nal_buffer := _nal_buffer st;
     _physical_width := _physical_width st;
     _physical_height := _physical_height st;
     _touch_states := _touch_states st;
     _agent := _agent st; _chat_cancelled := _chat_cancelled st |}.

Definition set_agent (st : bridge) (agent : bool) : bridge :=
  {| device_info := device_info st; clients := clients st; _sps := _sps st;
     _pps := _pps st; _last_keyframe := _last_keyframe st;
     _nal_buffer := _nal_buffer st;
     _physical_width := _physical_width st;
     _physical_height := _physical_height st;
     _touch_states := _touch_states st;
     _agent := agent; _chat_cancelled := _chat_cancelled st |}.

Definition set_chat_cancelled (st : bridge) (flag : bool) : bridge :=
  {| device_info := device_info st; clients := clients st; _sps := _sps st;
     _pps := _pps st; _last_keyframe := _last_keyframe st;
     _nal_buffer := _nal_buffer st;
     _physical_width := _physical_width st;
     _physical_height := _physical_height st;
     _touch_states := _touch_states st;
     _agent := _agent st; _chat_cancelled := flag |}.

Definition set_nal_buffer (st : bridge) (buf : list Z) : bridge :=
  {| device_info := device_info st; clients := clients st; _sps := _sps st;
     _pps := _pps st; _last_keyframe := _last_keyframe st;
     _nal_buffer := buf;
     _physical_width := _physical_width st;
     _physical_height := _physical_height st;
     _touch_states := _touch_states st;
     _agent := _agent st; _chat_cancelled := _chat_cancelled st |}.

(** The tap or swipe of a pointer-up at [(x, y)] that resolves the
    pointer-down at [(start_x, start_y)], [duration] seconds later;
    [half_power] is what [** 0.5] computes. *)
Definition is_swipe (half_power : float → float)
    (start_x start_y x y duration : float) : bool :=
  let dx := (x - start_x)%float in
  let dy := (y - start_y)%float in
  let distance := half_power (dx * dx + dy * dy)%float in
  let velocity :=
    if PrimFloat.ltb 0 duration then (distance / duration)%float else 0%float in
  (PrimFloat.ltb SWIPE_VELOCITY_THRESHOLD velocity
   || (PrimFloat.ltb SWIPE_DISTANCE_THRESHOLD distance
       && PrimFloat.ltb SWIPE_MAX_TAP_DURATION duration))%bool.

Definition gesture_command (half_power : float → float) (st : bridge)
    (start_x start_y x y duration : float) : shell_cmd :=
  let abs_start_x := int_of_float (start_x * float_of_int (_physical_width st)) in
  let abs_start_y := int_of_float (start_y * float_of_int (_physical_height st)) in
  let abs_end_x := int_of_float (x * float_of_int (_physical_width st)) in
  let abs_end_y := int_of_float (y * float_of_int (_physical_height st)) in
  if is_swipe half_power start_x start_y x y duration then
    InputSwipe abs_start_x abs_start_y abs_end_x abs_end_y 200
  else InputTap abs_end_x abs_end_y.

(** [_send_touch] *)
Definition _send_touch (st : bridge) (client : nat) (action : json)
    (x y : float) (e : env) : bridge * list effect :=
  match device_info st with
  | None => (st, [])
  | Some _ =>
      if negb (in_unit x && in_unit y) then
        (st, [Log Warning InvalidTouchCoordinates])
      else
        let '(st, effs) :=
          if _physical_width st =? 0 then
            (set_physical st (screen e), [Shell WmSize; Log Info PhysicalScreenSize])
          else (st, []) in
        let st :=
          match _touch_states st !! client with
          | None =>
              set_touch_states st
                (<[client := {| start_pos := None; start_time := 0.0 |}]>
                   (_touch_states st))
          | Some _ => st
          end in
        let touch_state :=
          default {| start_pos := None; start_time := 0.0 |}
                  (_touch_states st !! client) in
        let stale :=
          match start_pos touch_state with
          | Some _ =>
              PrimFloat.ltb TOUCH_TIMEOUT (clock e 0 - start_time touch_state)
          | None => false
          end in
        (* the number of calls of [time()] made so far *)
        let k := if start_pos touch_state is Some _ then 1%nat else 0%nat in
        if stale then
          (set_touch_states st
             (<[client := {| start_pos := None;
                             start_time := start_time touch_state |}]>
                (_touch_states st)),
           effs ++ [Log Warning TouchCancelled])
        else if is_str action "down" then
          (set_touch_states st
             (<[client := {| start_pos := Some (x, y); start_time := clock e k |}]>
                (_touch_states st)),
           effs)
        else if is_str action "move" then (st, effs)
        else if is_str action "up" then
          match start_pos touch_state with
          | None => (st, effs)
          | Some (start_x, start_y) =>
              let duration := (clock e k - start_time touch_state)%float in
              let st' :=
                set_touch_states st
                  (<[client := {| start_pos := None;
                                  start_time := start_time touch_state |}]>
                     (_touch_states st)) in
              let cmd :=
                gesture_command (half_power e) st start_x start_y x y duration in
              let report :=
                if shell_ok e then
                  Log Info (if is_swipe (half_power e) start_x start_y x y
                                        duration
                            then SentSwipe else SentTap)
                else Log Warning FailedToSendTouch in
              (st', effs ++ [Shell cmd; report])
          end
        else (st, effs)
  end.

(** [_send_key]; the [action] argument is not used by the method. *)
Definition _send_key (keycode : json) (e : env) : list effect :=
  [Shell (InputKeyevent keycode);
   if shell_ok e then Log Info SentKey else Log Warning FailedToSendKey].

(** [d[k]] and [d.get(k)] on the dictionary [json.loads] builds from an
    object: of several members with one key the last one is kept. *)
Fixpoint dict_get (k : string) (members : list (string * json)) : option json :=
  match members with
  | [] => None
  | (k', v) :: rest =>
      match dict_get k rest with
      | Some v' => Some v'
      | None => if bool_decide (k' = k) then Some v else None
      end
  end.

(** What [f"{v:.3f}"] raises, if anything. *)
Definition format_3f (v : json) : option py_exn :=
  match v with
  | JFloat _ | JBool _ => None
  | JInt z =>
      match Prim2SF (float_of_int z) with
      | S754_infinity _ => Some OverflowError
      | _ => None
      end
  | JStr _ => Some ValueError
  | JNull | JArr _ | JObj _ => Some TypeError
  end.

(** The number a JSON value stands for in arithmetic and comparisons. *)
Definition number (v : json) : float :=
  match v with
  | JFloat f => f
  | JInt z => float_of_int z
  | JBool true => 1.0
  | _ => 0.0
  end.

(** What [v[:50]] raises, if anything (a dictionary raises [TypeError] up
    to Python 3.11, where a slice is not hashable). *)
Definition slice_50 (v : json) : option py_exn :=
  match v with
  | JStr _ | JArr _ => None
  | _ => Some TypeError
  end.

(** The result of [json.loads(message)]: it raises [JSONDecodeError], or
    it raises another exception ([RecursionError] on a text nested too
    deep, [UnicodeDecodeError] on a binary frame that is not UTF-8), or it
    returns a value. *)
Inductive loads_result :=
  | Malformed
  | Unreadable (exn : py_exn)
  | Parsed (data : json).

(** How a call ends: the state it leaves, what it did, and the exception
    that propagates out of it, if any. *)
Record outcome := {
  state : bridge;
  effects : list effect;
  raised : option py_exn;
}.

Definition returns (st : bridge) (effs : list effect) : outcome :=
  {| state := st; effects := effs; raised := None |}.

(** An exception raised inside the [try] of [_handle_control_message]:
    [except (json.JSONDecodeError, KeyError)] logs a warning, any other
    exception propagates. *)
Definition raises (exn : py_exn) (st : bridge) (effs : list effect) : outcome :=
  match exn with
  | JSONDecodeError | KeyError =>
      returns st (effs ++ [Log Warning InvalidControlMessage])
  | _ => {| state := st; effects := effs; raised := Some exn |}
  end.

(** The evaluation of the f-string of the touch log line: the members are
    looked up and formatted from left to right. *)
Definition touch_fields (members : list (string * json))
    : py_exn + (json * json * json) :=
  match dict_get "action" members with
  | None => inl KeyError
  | Some action =>
      match dict_get "x" members with
      | None => inl KeyError
      | Some x =>
          match format_3f x with
          | Some exn => inl exn
          | None =>
              match dict_get "y" members with
              | None => inl KeyError
              | Some y =>
                  match format_3f y with
                  | Some exn => inl exn
                  | None => inr (action, x, y)
                  end
              end
          end
      end
  end.

(** [_get_agent]: the agent is created on first use; an exception of its
    creation is logged and raised again. *)
Definition _get_agent (st : bridge) (e : env) : outcome :=
  if _agent st then returns st []
  else
    match agent_init e with
    | Some exn =>
        {| state := st; effects := [Log Error FailedToInitializeAgent];
           raised := Some exn |}
    | None => returns (set_agent st true) [Log Info AgentInitialized]
    end.

(** [_handle_control_message].  [AgentInterrupt] and [AgentClearSession]
    record that the call on the agent is made, whether it returns or
    raises; a send that raises delivers nothing. *)
Definition _handle_control_message (st : bridge) (client : nat)
    (message : loads_result) (e : env) : outcome :=
  match message with
  | Malformed => raises JSONDecodeError st []
  | Unreadable exn => raises exn st []
  | Parsed (JObj members) =>
      let msg_type := default JNull (dict_get "type" members) in
      if is_str msg_type "touch" then
        match touch_fields members with
        | inl exn => raises exn st []
        | inr (action, x, y) =>
            let '(st', effs) := _send_touch st client action (number x) (number y) e in
            returns st' (Log Info TouchEvent :: effs)
        end
      else
        let effs := [Log Info ReceivedControlMessage] in
        if is_str msg_type "key" then
          match dict_get "keycode" members with
          | None => raises KeyError st effs
          | Some keycode =>
              match dict_get "action" members with
              | None => raises KeyError st effs
              | Some _ => returns st (effs ++ _send_key keycode e)
              end
          end
        else if is_str msg_type "back" then
          returns st (effs ++ Log Info ButtonPressed :: _send_key (JInt 4) e)
        else if is_str msg_type "home" then
          returns st (effs ++ Log Info ButtonPressed :: _send_key (JInt 3) e)
        else if is_str msg_type "recents" then
          returns st (effs ++ Log Info ButtonPressed :: _send_key (JInt 187) e)
        else if is_str msg_type "chat" then
          let user_message := default (JStr "") (dict_get "message" members) in
          match slice_50 user_message with
          | Some exn => raises exn st effs
          | None =>
              returns st (effs ++ [Log Info ChatMessageReceived;
                                   CreateChatTask client user_message])
          end
        else if is_str msg_type "cancel" then
          let effs := effs ++ [Log Info CancelRequested; SetChatCancelled] in
          let g := _get_agent (set_chat_cancelled st true) e in
          match raised g with
          | Some exn => raises exn (state g) (effs ++ effects g)
          | None =>
              let effs := effs ++ effects g ++ [AgentInterrupt] in
              match interrupt_sync e with
              | Some exn => raises exn (state g) effs
              | None => returns (state g) effs
              end
          end
        else if is_str msg_type "new_session" then
          let effs := effs ++ [Log Info NewSessionRequested] in
          let g := _get_agent st e in
          match raised g with
          | Some exn => raises exn (state g) (effs ++ effects g)
          | None =>
              let effs := effs ++ effects g ++ [AgentClearSession] in
              match clear_session e with
              | Some exn => raises exn (state g) effs
              | None =>
                  match client_send e with
                  | Some exn => raises exn (state g) effs
                  | None =>
                      returns (state g)
                              (effs ++ [Send client MsgSessionCleared])
                  end
              end
          end
        else returns st effs
  | Parsed _ => raises AttributeError st []
  end.

(** The [finally] of [_handle_client]. *)
Definition client_finally (st : bridge) (client : nat) : bridge :=
  set_touch_states (set_clients st (clients st ∖ {[client]}))
                   (delete client (_touch_states st)).

(** [async for message in websocket: await self._handle_control_message(...)]
    followed by the [finally] of [_handle_client], which runs when the
    messages end (the viewer closed the connection) and when an exception
    leaves the loop; in the second case the exception ends the connection
    handler, and the server closes the connection, but for
    [ConnectionClosed], which [_handle_client] catches and logs. *)
Fixpoint message_loop (st : bridge) (client : nat)
    (messages : list (loads_result * env)) : outcome :=
  match messages with
  | [] => returns (client_finally st client) []
  | (message, e) :: rest =>
      let o := _handle_control_message st client message e in
      match raised o with
      | Some ConnectionClosed =>
          returns (client_finally (state o) client)
                  (effects o ++ [Log Info ClientDisconnected])
      | Some exn =>
          {| state := client_finally (state o) client; effects := effects o;
             raised := Some exn |}
      | None =>
          let o' := message_loop (state o) client rest in
          {| state := state o'; effects := effects o ++ effects o';
             raised := raised o' |}
      end
  end.

(** The statements of [_handle_client] before the message loop, one per
    suspension point.  The sends are taken to return. *)
Definition client_add (st : bridge) (client : nat) : bridge * list effect :=
  (set_clients st ({[client]} ∪ clients st), [Log Info ClientConnected]).

Definition send_device_info (st : bridge) (client : nat) : list effect :=
  match device_info st with
  | Some info => [Send client (MsgDeviceInfo info)]
  | None => []
  end.

(** [if cached: await websocket.send(cached)]; an empty [bytes] is false. *)
Definition send_cached (cached : option (list Z)) (what : log_msg)
    (client : nat) : list effect :=
  match cached with
  | Some (b :: data) => [Send client (MsgBinary (b :: data)); Log Info what]
  | _ => []
  end.

(** The body of [for nal_unit in nal_units] in [_video_stream_loop], but
    for the count of units.  [fails c] tells whether [client.send] raises
    for viewer [c]; [asyncio.gather(..., return_exceptions=True)] collects
    the exceptions, which are then logged. *)
Definition process_nal_unit (st : bridge) (nal_unit : list Z)
    (fails : nat → bool) : bridge * list effect :=
  let sps := if Nal._is_sps nal_unit then Some nal_unit else _sps st in
  let pps := if Nal._is_pps nal_unit then Some nal_unit else _pps st in
  let kf := if Nal._is_keyframe nal_unit then Some nal_unit else _last_keyframe st in
  let cached :=
    (if Nal._is_sps nal_unit then [Log Info CachedSps] else [])
    ++ (if Nal._is_pps nal_unit then [Log Info CachedPps] else []) in
  let receivers := elements (clients st) in
  let sends :=
    flat_map (λ c, if fails c then [] else [Send c (MsgBinary nal_unit)])
             receivers in
  let warnings :=
    flat_map (λ c, if fails c then [Log Warning FailedToSendToClient] else [])
             receivers in
  (set_cache st sps pps kf, cached ++ sends ++ warnings).

(** What the event loop interleaves: the steps of the connection handlers
    and the processing of a unit by the video loop. *)
Inductive event :=
  | Connect (client : nat)
  | SendDeviceInfo (client : nat)
  | SendSps (client : nat)
  | SendPps (client : nat)
  | SendKeyframe (client : nat)
  | Unit (nal_unit : list Z) (fails : nat → bool)
  | Closed (client : nat).

Definition step (st : bridge) (ev : event) : bridge * list effect :=
  match ev with
  | Connect c => client_add st c
  | SendDeviceInfo c => (st, send_device_info st c)
  | SendSps c => (st, send_cached (_sps st) SentCachedSps c)
  | SendPps c => (st, send_cached (_pps st) SentCachedPps c)
  | SendKeyframe c => (st, send_cached (_last_keyframe st) SentCachedKeyframe c)
  | Unit u fails => process_nal_unit st u fails
  | Closed c => (client_finally st c, [Log Info ClientDisconnected])
  end.

Fixpoint run (st : bridge) (evs : list event) : bridge * list effect :=
  match evs with
  | [] => (st, [])
  | ev :: rest =>
      let '(st', effs) := step st ev in
      let '(st'', effs') := run st' rest in
      (st'', effs ++ effs')
  end.

(** The handler of a new viewer up to its message loop, nothing else
    running in between. *)
Definition join (client : nat) : list event :=
  [Connect client; SendDeviceInfo client; SendSps client; SendPps client;
   SendKeyframe client].

(** What viewer [client] is sent, in order. *)
Fixpoint received (client : nat) (effs : list effect) : list message :=
  match effs with
  | [] => []
  | Send c m :: rest =>
      if bool_decide (c = client) then m :: received client rest
      else received client rest
  | _ :: rest => received client rest
  end.

(** A viewer's messages are in catch-up order when every unit that is
    neither a parameter set nor a keyframe comes after an SPS, a PPS and a
    keyframe. *)
Fixpoint catch_up_order (seen_sps seen_pps seen_kf : bool) (ms : list message)
    : bool :=
  match ms with
  | [] => true
  | MsgBinary u :: rest =>
      if (Nal._is_sps u || Nal._is_pps u || Nal._is_keyframe u)%bool then
        catch_up_order (seen_sps || Nal._is_sps u) (seen_pps || Nal._is_pps u)
                       (seen_kf || Nal._is_keyframe u) rest
      else (seen_sps && seen_pps && seen_kf
            && catch_up_order seen_sps seen_pps seen_kf rest)%bool
  | _ :: rest => catch_up_order seen_sps seen_pps seen_kf rest
  end.

(** The shell commands among the effects, and those that act on the
    device's input. *)
Definition shell_commands (effs : list effect) : list shell_cmd :=
  omap (λ eff, if eff is Shell cmd then Some cmd else None) effs.

Definition is_input (cmd : shell_cmd) : bool :=
  match cmd with
  | WmSize => false
  | _ => true
  end.

Definition input_commands (effs : list effect) : list shell_cmd :=
  List.filter is_input (shell_commands effs).

(** The physical size [_send_touch] works with: the cached one, or the one
    it queries when none is cached. *)
Definition physical (st : bridge) (e : env) : Z * Z :=
  if _physical_width st =? 0 then screen e
  else (_physical_width st, _physical_height st).

(** The bridge once the physical size is known, and what finding it out
    does. *)
Definition sized (st : bridge) (e : env) : bridge * list effect :=
  if _physical_width st =? 0 then
    (set_physical st (screen e), [Shell WmSize; Log Info PhysicalScreenSize])
  else (st, []).

(** A bridge that serves a 1080x2340 device, for the examples. *)
Definition sample_device : DeviceInfo :=
  {| name := "Pixel"; width := 1080; height := 2340; serial := "emulator-5554" |}.

Definition sample_bridge : bridge :=
  {| device_info := Some sample_device; clients := ∅;
     _sps := None; _pps := None; _last_keyframe := None; _nal_buffer := [];
     _physical_width := 1080; _physical_height := 2340;
     _touch_states := ∅; _agent := false; _chat_cancelled := false |}.

(** An invocation during which every call of [time()] returns [t] and no
    call on the device, the agent or the viewer raises; [** 0.5] gives the
    correctly rounded square root, as it does at the positions of the
    examples. *)
Definition at_time (t : float) : env :=
  {| screen := (1080, 2340); clock := λ _, t; shell_ok := true;
     half_power := PrimFloat.sqrt; agent_init := None;
     interrupt_sync := None; clear_session := None; client_send := None |}.

(** The sample bridge after viewer 1 pressed at (0.5, 0.5) at time 1000. *)
Definition pressed : bridge :=
  (_send_touch sample_bridge 1 (JStr "down") 0.5 0.5 (at_time 1000)).1.

(** Units of the four kinds, behind 4-byte markers: the types are the low
    5 bits of 0x67, 0x68, 0x65 and 0x41. *)
Definition sps_unit : list Z := [0; 0; 0; 1; 103; 66; 192; 41].
Definition pps_unit : list Z := [0; 0; 0; 1; 104; 206; 60; 128].
Definition idr_unit : list Z := [0; 0; 0; 1; 101; 136; 132; 0].
Definition delta_unit : list Z := [0; 0; 0; 1; 65; 154; 36; 108].

(** Every send returns. *)
Definition no_failure : nat → bool := λ _, false.

(** The send to viewer [c] raises, the others return. *)
Definition failure_of (c : nat) : nat → bool := λ c', bool_decide (c' = c).

(** The units that are processed with no send to [c] raising. *)
Definition unit_events (units : list (list Z * (nat → bool))) : list event :=
  map (λ uf, Unit uf.1 uf.2) units.

(** The sample bridge once an SPS, a PPS and a keyframe went through. *)
Definition streaming : bridge :=
  (run sample_bridge
       [Unit sps_unit no_failure; Unit pps_unit no_failure;
        Unit idr_unit no_failure]).1.

(** Viewers 1 and 2 connected, viewer 1 with a pointer-down recorded. *)
Definition two_viewers : bridge :=
  (run pressed (join 1 ++ join 2)).1.

(** What [self._video_socket.recv(0x10000)] does in one iteration of
    [_video_stream_loop]: it raises [BlockingIOError] (or [OSError] with
    EAGAIN), after which the loop sleeps and goes on, or it returns bytes,
    none when the stream is closed. *)
Inductive read :=
  | NoData
  | Data (data : list Z).

(** The bytes of the reads that returned some. *)
Definition read_bytes (reads : list read) : list (list Z) :=
  omap (λ r, if r is Data data then Some data else None) reads.

(** How [_video_stream_loop] ends: the bridge it leaves, what it did, and
    whether it left the loop on an empty read, logging that the video
    stream is disconnected. *)
Record loop_result := {
  final : bridge;
  sent : list effect;
  disconnected : bool;
}.

(** [for nal_unit in nal_units]: [nal_count] units were processed before;
    [fails n c] tells whether the send of unit number [n] to viewer [c]
    raises. *)
Fixpoint process_nal_units (st : bridge) (nal_units : list (list Z))
    (nal_count : nat) (fails : nat → nat → bool) : bridge * list effect :=
  match nal_units with
  | [] => (st, [])
  | nal_unit :: rest =>
      let '(st', effs) := process_nal_unit st nal_unit (fails (S nal_count)) in
      let '(st'', effs') := process_nal_units st' rest (S nal_count) fails in
      (st'', effs ++ effs')
  end.

(** [_video_stream_loop], one iteration of [while self.alive] per read; the
    list of reads ends where [self.alive] is found false.  No connection
    handler runs in between: the interleavings with the handlers are those
    of [run]. *)
Fixpoint _video_stream_loop (st : bridge) (reads : list read) (nal_count : nat)
    (fails : nat → nat → bool) : loop_result :=
  match reads with
  | [] => {| final := st; sent := []; disconnected := false |}
  | NoData :: rest => _video_stream_loop st rest nal_count fails
  | Data [] :: _ => {| final := st; sent := []; disconnected := true |}
  | Data data :: rest =>
      let '(nal_units, buf) := Nal.ingest (_nal_buffer st) data in
      let '(st', effs) :=
        process_nal_units (set_nal_buffer st buf) nal_units nal_count fails in
      let r := _video_stream_loop st' rest (nal_count + length nal_units) fails in
      {| final := final r; sent := effs ++ sent r; disconnected := disconnected r |}
  end.

(** The cached units are of the kinds they are cached as. *)
Definition cache_ok (st : bridge) : Prop :=
  (∀ s, _sps st = Some s → Nal._is_sps s = true)
  ∧ (∀ p, _pps st = Some p → Nal._is_pps p = true)
  ∧ (∀ k, _last_keyframe st = Some k → Nal._is_keyframe k = true).

(** The last unit of [units] that [kind] accepts, [cached] when there is
    none. *)
Definition latest (kind : list Z → bool) (cached : option (list Z))
    (units : list (list Z)) : option (list Z) :=
  match List.filter kind units with
  | [] => cached
  | u :: us => Some (List.last us u)
  end.

(** Whether an event is a step that the connection handler of viewer [c]
    takes before its message loop. *)
Definition handler_step (c : nat) (ev : event) : bool :=
  match ev with
  | Connect c' | SendDeviceInfo c' | SendSps c' | SendPps c'
  | SendKeyframe c' => bool_decide (c' = c)
  | Unit _ _ | Closed _ => false
  end.

(** [TouchState()] *)
Definition fresh : TouchState := {| start_pos := None; start_time := 0.0 |}.

(** [st'] is [st] but for the cancel flag and the agent. *)
Definition same_but_chat (st st' : bridge) : Prop :=
  set_chat_cancelled (set_agent st' (_agent st)) (_chat_cancelled st) = st.


End Bridge.



(** ** The chat turns

    [_handle_chat_message] hands [invoke_agent] to the executor of the
    bridge, [ThreadPoolExecutor(max_workers=1)]; [invoke_agent] calls
    [agent.invoke] inside [with self._chat_lock].  A turn is queued in the
    executor, then run by a worker thread, which takes the lock, invokes
    the agent and releases the lock when the [with] block is left, by
    [return] or by an exception. *)

Module Chat.

(** Where the worker thread of a started turn is. *)
Inductive pc :=
  | AtLock      (* about to enter [with self._chat_lock] *)
  | InAgent.    (* inside the block: [agent.invoke] is running *)

Record state := {
  queue : list nat;          (* work items not started, first in first out *)
  workers : gmap nat pc;     (* the turns a worker thread is running *)
  finished : gset nat;       (* the turns whose [invoke_agent] returned *)
  cancelled : gset nat;      (* the turns whose work item was cancelled *)
  _chat_lock : option nat;   (* the turn that holds the lock *)
}.

Definition max_workers : nat := 1.

Definition init : state :=
  {| queue := []; workers := ∅; finished := ∅; cancelled := ∅;
     _chat_lock := None |}.

(** [Cancel t]: after a cancel request the handler of turn [t] waits for
    its work item with [asyncio.wait_for(agent_future, timeout=2.0)]; when
    the wait times out the future is cancelled, and a work item that no
    worker has taken yet is then never run.  (A work item that is running
    cannot be cancelled: its turn goes on.) *)
Inductive label :=
  | Submit (t : nat)     (* [loop.run_in_executor(self._executor, invoke_agent)] *)
  | Start (t : nat)      (* a worker thread takes the work item *)
  | Acquire (t : nat)    (* [with self._chat_lock:] is entered *)
  | Release (t : nat)    (* the block is left *)
  | Cancel (t : nat).    (* the wait for a queued work item times out *)

(** A turn the bridge has been asked for and that has not been dropped. *)
Definition known (s : state) (t : nat) : Prop :=
  t ∈ queue s ∨ is_Some (workers s !! t) ∨ t ∈ finished s.

(** A turn the bridge has been asked for. *)
Definition submitted (s : state) (t : nat) : Prop :=
  known s t ∨ t ∈ cancelled s.

Definition in_agent (s : state) (t : nat) : Prop :=
  workers s !! t = Some InAgent.

(** One step of an executor of [cap] worker threads; [None] when the step
    cannot be taken in [s]. *)
Definition step (cap : nat) (s : state) (l : label) : option state :=
  match l with
  | Submit t =>
      if bool_decide (submitted s t) then None
      else Some {| queue := queue s ++ [t]; workers := workers s;
                   finished := finished s; cancelled := cancelled s;
                   _chat_lock := _chat_lock s |}
  | Start t =>
      match queue s with
      | t' :: rest =>
          if bool_decide (t' = t ∧ size (workers s) < cap)%nat then
            Some {| queue := rest; workers := <[t := AtLock]> (workers s);
                    finished := finished s; cancelled := cancelled s;
                    _chat_lock := _chat_lock s |}
          else None
      | [] => None
      end
  | Acquire t =>
      match workers s !! t, _chat_lock s with
      | Some AtLock, None =>
          Some {| queue := queue s; workers := <[t := InAgent]> (workers s);
                  finished := finished s; cancelled := cancelled s;
                  _chat_lock := Some t |}
      | _, _ => None
      end
  | Release t =>
      match workers s !! t with
      | Some InAgent =>
          Some {| queue := queue s; workers := delete t (workers s);
                  finished := {[t]} ∪ finished s; cancelled := cancelled s;
                  _chat_lock := None |}
      | _ => None
      end
  | Cancel t =>
      if bool_decide (t ∈ queue s) then
        Some {| queue := filter (λ t', t' ≠ t) (queue s);
                workers := workers s; finished := finished s;
                cancelled := {[t]} ∪ cancelled s;
                _chat_lock := _chat_lock s |}
      else None
  end.

Fixpoint run (cap : nat) (s : state) (ls : list label) : option state :=
  match ls with
  | [] => Some s
  | l :: rest =>
      match step cap s l with
      | Some s' => run cap s' rest
      | None => None
      end
  end.

(** The lock is held by the turn that is inside the block, and by no
    other. *)
Definition lock_inv (s : state) : Prop :=
  ∀ t, in_agent s t ↔ _chat_lock s = Some t.

(** A turn is queued, or run by a worker, or finished, and queued once. *)
Definition turns_inv (s : state) : Prop :=
  NoDup (queue s)
  ∧ (∀ t, t ∈ queue s → workers s !! t = None ∧ t ∉ finished s)
  ∧ (∀ t, is_Some (workers s !! t) → t ∉ finished s).

(** A cancelled turn is dropped for good. *)
Definition cancelled_inv (s : state) : Prop :=
  ∀ t, t ∈ cancelled s → ¬ known s t.

(** Two chat requests, served one after the other; the second is in the
    agent at the end. *)
Definition two_turns : list label :=
  [Submit 1; Submit 2; Start 1; Acquire 1; Release 1; Start 2; Acquire 2].

Definition second_in_agent : state :=
  {| queue := []; workers := {[2%nat := InAgent]}; finished := {[1%nat]};
     cancelled := ∅; _chat_lock := Some 2%nat |}.

(** The turns submitted, started, and let into the agent during a run,
    in order. *)
Definition submits (ls : list label) : list nat :=
  omap (λ l, if l is Submit t then Some t else None) ls.

Definition starts (ls : list label) : list nat :=
  omap (λ l, if l is Start t then Some t else None) ls.

Definition acquires (ls : list label) : list nat :=
  omap (λ l, if l is Acquire t then Some t else None) ls.

Definition cancels (ls : list label) : list nat :=
  omap (λ l, if l is Cancel t then Some t else None) ls.

(** A second request arrives while the first is in the agent, and the wait
    for it times out before the first has left. *)
Definition second_waiting : list label :=
  [Submit 1; Start 1; Acquire 1; Submit 2].

Definition second_dropped : list label :=
  second_waiting ++ [Cancel 2; Release 1].

(** The turns submitted and not cancelled, in the order submitted. *)
Definition kept (ls : list label) : list nat :=
  filter (λ t, t ∉ cancels ls) (submits ls).

(** The order of the turns, with the single worker of the bridge: the
    turns started and those still queued are the turns submitted and not
    cancelled, and the turns started are those let into the agent and the
    turn waiting at the lock, if any. *)
Definition order_inv (pre : list label) (s : state) : Prop :=
  NoDup (submits pre)
  ∧ (∀ t, t ∈ submits pre → submitted s t)
  ∧ (∀ t, t ∈ cancels pre → t ∈ cancelled s)
  ∧ starts pre ++ queue s = kept pre
  ∧ ∃ waiting, starts pre = acquires pre ++ waiting
      ∧ (length waiting ≤ 1)%nat
      ∧ ∀ t, workers s !! t = Some AtLock ↔ t ∈ waiting.

End Chat.

(** ** Facts about the framer *)

Module NalFacts.
Import Nal.

Lemma slice_app_l (buf c : list Z) (a b : nat) :
  (b ≤ length buf)%nat → slice (buf ++ c) a b = slice buf a b.
Proof.
  intros Hb. unfold slice.
  destruct (decide (a ≤ length buf)%nat) as [Ha|Ha].
  - rewrite drop_app_le by done.
    rewrite take_app_le; [done|]. rewrite length_drop. lia.
  - replace (b - a)%nat with 0%nat by lia. done.
Qed.

Lemma slice_drop (buf : list Z) (p a b : nat) :
  slice (drop p buf) a b = slice buf (p + a) (p + b).
Proof.
  unfold slice. rewrite drop_drop. f_equal. lia.
Qed.

Lemma scan_loop_fuel (buf : list Z) (f1 f2 i : nat) :
  (length buf ≤ i + f1)%nat → (length buf ≤ i + f2)%nat →
  scan_loop f1 buf i = scan_loop f2 buf i.
Proof.
  revert f2 i. induction f1 as [|f1 IH]; intros f2 i H1 H2.
  - destruct f2 as [|f2]; [done|]. simpl.
    destruct (Nat.ltb_spec (i + 3) (length buf)); [lia|done].
  - destruct f2 as [|f2]; simpl.
    + destruct (Nat.ltb_spec (i + 3) (length buf)); [lia|done].
    + destruct (Nat.ltb_spec (i + 3) (length buf)); [|done].
      rewrite (IH f2 (i + 4)%nat), (IH f2 (i + 3)%nat), (IH f2 (i + 1)%nat)
        by lia.
      done.
Qed.

(** The loop equation, free of fuel. *)
Lemma scan_eq (buf : list Z) (i : nat) :
  scan buf i =
    if (i + 3 <? length buf)%nat then
      if bool_decide (slice buf i (i + 4) = START4) then
        (i, 4%nat) :: scan buf (i + 4)
      else if bool_decide (slice buf i (i + 3) = START3) then
        (i, 3%nat) :: scan buf (i + 3)
      else scan buf (i + 1)
    else [].
Proof.
  unfold scan. destruct (Nat.ltb_spec (i + 3) (length buf)) as [H|H].
  - destruct (length buf) as [|n] eqn:Hn; [lia|].
    rewrite (scan_loop_fuel buf (S n) n (i + 4)),
            (scan_loop_fuel buf (S n) n (i + 3)),
            (scan_loop_fuel buf (S n) n (i + 1)) by lia.
    simpl. rewrite Hn. destruct (Nat.ltb_spec (i + 3) (S n)); [done|lia].
  - destruct (length buf) as [|n] eqn:Hn; [done|].
    simpl. rewrite Hn. destruct (Nat.ltb_spec (i + 3) (S n)); [lia|done].
Qed.

(** Induction along the loop: the index grows while the loop runs. *)
Lemma scan_ind (buf : list Z) (P : nat → Prop) :
  (∀ i, ((i + 3 < length buf)%nat → ∀ j, (i < j)%nat → P j) → P i) →
  ∀ i, P i.
Proof.
  intros step i.
  remember (length buf - i)%nat as n eqn:Hn.
  revert i Hn. induction n as [n IH] using lt_wf_ind. intros i Hn.
  apply step. intros Hi j Hj.
  apply (IH (length buf - j)%nat); [lia|done].
Qed.

(** Every start position leaves at least one byte after a 3-byte marker. *)
Lemma scan_bound (buf : list Z) (i : nat) :
  Forall (λ q, (i ≤ q.1 ∧ q.1 + 3 < length buf)%nat) (scan buf i).
Proof.
  induction i as [i IH] using (scan_ind buf).
  rewrite scan_eq. destruct (Nat.ltb_spec (i + 3) (length buf)) as [H|H]; [|done].
  specialize (IH H).
  repeat case_bool_decide.
  - constructor; [simpl; lia|].
    eapply Forall_impl; [apply (IH (i + 4)%nat); lia|]. simpl. lia.
  - constructor; [simpl; lia|].
    eapply Forall_impl; [apply (IH (i + 3)%nat); lia|]. simpl. lia.
  - eapply Forall_impl; [apply (IH (i + 1)%nat); lia|]. simpl. lia.
Qed.

(** The bytes at a start position are the marker of the recorded length. *)
Lemma scan_marker (buf : list Z) (i : nat) :
  Forall (λ q, slice buf q.1 (q.1 + q.2) = marker_of q.2) (scan buf i).
Proof.
  induction i as [i IH] using (scan_ind buf).
  rewrite scan_eq. destruct (Nat.ltb_spec (i + 3) (length buf)) as [H|H]; [|done].
  specialize (IH H).
  repeat case_bool_decide.
  - constructor; [done|]. apply IH; lia.
  - constructor; [done|]. apply IH; lia.
  - apply IH; lia.
Qed.

(** Scanning a suffix finds the start positions of the whole from there on. *)
Lemma scan_drop (buf : list Z) (p i : nat) :
  scan buf (p + i) = shift p <$> scan (drop p buf) i.
Proof.
  induction i as [i IH] using (scan_ind (drop p buf)).
  rewrite (scan_eq buf), (scan_eq (drop p buf)).
  rewrite !slice_drop, length_drop.
  replace (p + i + 3 <? length buf)%nat with (i + 3 <? length buf - p)%nat
    by (destruct (Nat.ltb_spec (i + 3) (length buf - p));
        destruct (Nat.ltb_spec (p + i + 3) (length buf)); lia).
  destruct (Nat.ltb_spec (i + 3) (length buf - p)) as [H|H]; [|done].
  rewrite length_drop in IH. specialize (IH H).
  replace (p + (i + 4))%nat with (p + i + 4)%nat by lia.
  replace (p + (i + 3))%nat with (p + i + 3)%nat by lia.
  repeat case_bool_decide; simpl.
  - f_equal. replace (p + i + 4)%nat with (p + (i + 4))%nat by lia.
    apply IH; lia.
  - f_equal. replace (p + i + 3)%nat with (p + (i + 3))%nat by lia.
    apply IH; lia.
  - replace (p + i + 1)%nat with (p + (i + 1))%nat by lia. apply IH; lia.
Qed.

Lemma scan_app_step (buf c : list Z) (i : nat) :
  (i + 3 < length buf)%nat →
  scan (buf ++ c) i =
    if bool_decide (slice buf i (i + 4) = START4) then
      (i, 4%nat) :: scan (buf ++ c) (i + 4)
    else if bool_decide (slice buf i (i + 3) = START3) then
      (i, 3%nat) :: scan (buf ++ c) (i + 3)
    else scan (buf ++ c) (i + 1).
Proof.
  intros H. rewrite (scan_eq (buf ++ c) i), length_app.
  destruct (Nat.ltb_spec (i + 3) (length buf + length c)); [|lia].
  by rewrite !slice_app_l by lia.
Qed.

(** The start positions found in a buffer are found again, in the same
    order, once more bytes have been appended; the scan of the longer
    buffer continues from the last of them. *)
Lemma scan_app (buf c : list Z) (i : nat) (ps : list (nat * nat)) (q : nat * nat) :
  scan buf i = ps ++ [q] →
  ∃ rest, scan (buf ++ c) q.1 = q :: rest ∧ scan (buf ++ c) i = ps ++ q :: rest.
Proof.
  revert ps. induction i as [i IH] using (scan_ind buf). intros ps.
  rewrite (scan_eq buf).
  destruct (Nat.ltb_spec (i + 3) (length buf)) as [H|H];
    [|by destruct ps].
  specialize (IH H).
  pose proof (scan_app_step buf c i H) as Hstep.
  repeat case_bool_decide.
  - intros Heq. destruct ps as [|p ps]; simpl in Heq.
    + injection Heq as <- Hnil. simpl. eauto.
    + injection Heq as <- Heq.
      destruct (IH (i + 4)%nat ltac:(lia) ps Heq) as (rest & Hq & Hi).
      exists rest. rewrite Hstep, Hi. done.
  - intros Heq. destruct ps as [|p ps]; simpl in Heq.
    + injection Heq as <- Hnil. simpl. eauto.
    + injection Heq as <- Heq.
      destruct (IH (i + 3)%nat ltac:(lia) ps Heq) as (rest & Hq & Hi).
      exists rest. rewrite Hstep, Hi. done.
  - intros Heq. rewrite Hstep. apply (IH (i + 1)%nat); [lia|done].
Qed.

(** The comprehension over [range(len(start_positions) - 1)] lists the
    slices between consecutive start positions. *)
Lemma units_by_index (buf : list Z) (sp : list (nat * nat)) :
  map (λ idx, slice buf (nth idx sp (0, 0)%nat).1 (nth (idx + 1) sp (0, 0)%nat).1)
      (seq 0 (length sp - 1)) = units_between buf sp.
Proof.
  induction sp as [|p [|q sp] IH]; [done..|].
  replace (length (p :: q :: sp) - 1)%nat with (S (length (q :: sp) - 1))
    by (simpl; lia).
  rewrite <- cons_seq, <- seq_shift, map_cons, map_map.
  change (units_between buf (p :: q :: sp))
    with (slice buf p.1 q.1 :: units_between buf (q :: sp)).
  rewrite <- IH. f_equal.
Qed.

Lemma extract_eq (buf : list Z) :
  _extract_nal_units buf =
    let sp := scan buf 0 in
    if (length sp <? 2)%nat then ([], buf)
    else (units_between buf sp, drop (List.last sp (0, 0)%nat).1 buf).
Proof.
  unfold _extract_nal_units, start_positions. fold (scan buf 0). cbv zeta.
  by rewrite units_by_index.
Qed.

Lemma units_between_length (buf : list Z) (sp : list (nat * nat)) :
  length (units_between buf sp) = (length sp - 1)%nat.
Proof.
  induction sp as [|p [|q sp] IH]; [done..|].
  change (units_between buf (p :: q :: sp))
    with (slice buf p.1 q.1 :: units_between buf (q :: sp)).
  cbn [length] in *. lia.
Qed.

Lemma units_between_app (buf : list Z) (ps rest : list (nat * nat)) (q : nat * nat) :
  units_between buf (ps ++ q :: rest) =
    units_between buf (ps ++ [q]) ++ units_between buf (q :: rest).
Proof.
  induction ps as [|p [|p' ps] IH]; [done| |].
  - simpl. by destruct rest.
  - change (units_between buf ((p :: p' :: ps) ++ q :: rest))
      with (slice buf p.1 p'.1 :: units_between buf ((p' :: ps) ++ q :: rest)).
    rewrite IH. done.
Qed.

Lemma units_between_shift (buf : list Z) (p : nat) (sp : list (nat * nat)) :
  units_between buf (shift p <$> sp) = units_between (drop p buf) sp.
Proof.
  induction sp as [|a [|b sp] IH]; [done..|].
  change (units_between buf (shift p <$> a :: b :: sp))
    with (slice buf (p + a.1) (p + b.1) :: units_between buf (shift p <$> b :: sp)).
  rewrite IH.
  change (units_between (drop p buf) (a :: b :: sp))
    with (slice (drop p buf) a.1 b.1 :: units_between (drop p buf) (b :: sp)).
  by rewrite slice_drop.
Qed.

Lemma units_between_app_l (buf c : list Z) (sp : list (nat * nat)) :
  Forall (λ q, (q.1 ≤ length buf)%nat) sp →
  units_between (buf ++ c) sp = units_between buf sp.
Proof.
  induction sp as [|a [|b sp] IH]; [done..|].
  intros Hall. inversion Hall as [|? ? Ha Hall']; subst.
  inversion Hall' as [|? ? Hb _]; subst.
  change (units_between (buf ++ c) (a :: b :: sp))
    with (slice (buf ++ c) a.1 b.1 :: units_between (buf ++ c) (b :: sp)).
  rewrite IH by done. by rewrite slice_app_l.
Qed.

Lemma last_app_cons {A} (ps rest : list A) (q d : A) :
  List.last (ps ++ q :: rest) d = List.last (q :: rest) d.
Proof.
  induction ps as [|p ps IH]; [done|].
  rewrite <- IH. simpl. by destruct (ps ++ q :: rest) eqn:E; [destruct ps|].
Qed.

Lemma last_fmap_cons {A B} (f : A → B) (q : A) (l : list A) (d : A) (d' : B) :
  List.last (f <$> q :: l) d' = f (List.last (q :: l) d).
Proof.
  revert q. induction l as [|a l IH]; intros q; [done|].
  specialize (IH a). rewrite !fmap_cons in *.
  change (List.last (f q :: f a :: (f <$> l)) d') with (List.last (f a :: (f <$> l)) d').
  by rewrite IH.
Qed.

(** Extracting from a longer buffer is extracting from the shorter one and
    then from what was kept followed by the new bytes. *)
Lemma extract_app (buf c : list Z) :
  _extract_nal_units (buf ++ c) =
    let '(us, kept) := _extract_nal_units buf in
    let '(us', kept') := _extract_nal_units (kept ++ c) in
    (us ++ us', kept').
Proof.
  rewrite (extract_eq buf). cbv zeta.
  destruct (Nat.ltb_spec (length (scan buf 0)) 2) as [Hlt|Hge].
  { by destruct (_extract_nal_units (buf ++ c)). }
  destruct (exists_last (l:=scan buf 0)) as (ps & q & Hsp).
  { intros E. rewrite E in Hge. simpl in Hge. lia. }
  rewrite Hsp in *. rewrite last_last.
  destruct (scan_app buf c 0 ps q Hsp) as (rest & Hq & Hall).
  pose proof (scan_bound buf 0) as Hbound. rewrite Hsp in Hbound.
  assert (Hqb : (q.1 + 3 < length buf)%nat).
  { apply Forall_app in Hbound as [_ Hq']. by inversion Hq' as [|? ? [_ ?] _]. }
  assert (Hdrop : drop q.1 buf ++ c = drop q.1 (buf ++ c)).
  { rewrite drop_app_le by lia. done. }
  rewrite Hdrop.
  replace q.1 with (q.1 + 0)%nat in Hq by lia. rewrite scan_drop in Hq.
  rewrite !extract_eq. cbv zeta. rewrite Hall.
  destruct (scan (drop q.1 (buf ++ c)) 0) as [|q0 qs] eqn:Hqs; [done|].
  rewrite fmap_cons in Hq. injection Hq as Hq0 Hrest.
  rewrite length_app in *. cbn [length] in *.
  destruct (Nat.ltb_spec (length ps + S (length rest)) 2) as [?|_]; [lia|].
  assert (Hpre : units_between (buf ++ c) (ps ++ [q]) = units_between buf (ps ++ [q])).
  { apply units_between_app_l. eapply Forall_impl; [exact Hbound|]. simpl. lia. }
  rewrite units_between_app, Hpre. 
  destruct (Nat.ltb_spec (S (length qs)) 2) as [Hs|Hs].
  - destruct qs; [|simpl in Hs; lia]. simpl in Hrest. subst rest.
    simpl. rewrite last_last. by rewrite app_nil_r.
  - f_equal.
    + f_equal. rewrite <- Hrest.
      rewrite <- (units_between_shift (buf ++ c) q.1 (q0 :: qs)).
      rewrite fmap_cons, Hq0. done.
    + assert (Hsh : q :: rest = shift q.1 <$> q0 :: qs)
        by (by rewrite fmap_cons, Hq0, Hrest).
      rewrite last_app_cons, Hsh.
      rewrite (last_fmap_cons (shift q.1) q0 qs (0, 0)%nat).
      simpl. by rewrite drop_drop.
Qed.

(** Feeding the chunks one by one yields what one extraction from their
    concatenation yields, and leaves the same buffer. *)
Lemma feed_from (chunks : list (list Z)) (buf : list Z) :
  _extract_nal_units (buf ++ concat chunks) =
    let '(us, kept) := _extract_nal_units buf in
    let '(us', kept') := feed kept chunks in
    (us ++ us', kept').
Proof.
  revert buf. induction chunks as [|c chunks IH]; intros buf.
  - simpl. rewrite !app_nil_r. destruct (_extract_nal_units buf) as [us kept].
    by rewrite app_nil_r.
  - rewrite extract_app. destruct (_extract_nal_units buf) as [us kept].
    cbn [concat feed]. unfold ingest. rewrite app_assoc, IH.
    destruct (_extract_nal_units (kept ++ c)) as [u1 k1].
    by destruct (feed k1 chunks).
Qed.

Lemma feed_extract (chunks : list (list Z)) :
  feed [] chunks = _extract_nal_units (concat chunks).
Proof.
  pose proof (feed_from chunks []) as H. simpl in H.
  change (_extract_nal_units []) with (@nil (list Z), @nil Z) in H.
  rewrite H. by destruct (feed [] chunks).
Qed.

Lemma scan_spaced (buf : list Z) (i : nat) : spaced i (scan buf i).
Proof.
  induction i as [i IH] using (scan_ind buf).
  rewrite scan_eq. destruct (Nat.ltb_spec (i + 3) (length buf)) as [H|H]; [|done].
  specialize (IH H).
  assert (Hmono : ∀ j k sp, (j ≤ k)%nat → spaced k sp → spaced j sp).
  { intros j k [|q sp] Hjk; [done|]. simpl. intros [? ?]. split; [lia|done]. }
  repeat case_bool_decide; simpl.
  - split; [done|]. apply IH. lia.
  - split; [done|]. apply IH. lia.
  - apply (Hmono i (i + 1)%nat); [lia|]. apply IH. lia.
Qed.

Lemma spaced_lookup (i k : nat) (sp : list (nat * nat)) (a b : nat * nat) :
  spaced i sp → sp !! k = Some a → sp !! S k = Some b → (a.1 + a.2 ≤ b.1)%nat.
Proof.
  revert i k. induction sp as [|q sp IH]; intros i k Hsp Ha Hb; [done|].
  destruct Hsp as [_ Hsp]. destruct k as [|k].
  - simpl in Ha. injection Ha as ->. destruct sp as [|q' sp]; [done|].
    simpl in Hb. injection Hb as ->. by destruct Hsp.
  - by apply (IH _ k Hsp).
Qed.

Lemma units_between_lookup (buf : list Z) (sp : list (nat * nat)) (k : nat)
    (a b : nat * nat) :
  sp !! k = Some a → sp !! S k = Some b →
  units_between buf sp !! k = Some (slice buf a.1 b.1).
Proof.
  revert k. induction sp as [|p [|q sp] IH]; intros k Ha Hb; [done| |].
  - by destruct k.
  - change (units_between buf (p :: q :: sp))
      with (slice buf p.1 q.1 :: units_between buf (q :: sp)).
    destruct k as [|k].
    + simpl in *. by injection Ha as ->; injection Hb as ->.
    + by apply IH.
Qed.

(** A unit starts with the marker found at its start position. *)
Lemma slice_marker (buf : list Z) (p l q : nat) :
  slice buf p (p + l) = marker_of l → (p + l ≤ q)%nat →
  take l (slice buf p q) = marker_of l.
Proof.
  intros Hm Hq. rewrite <- Hm. unfold slice.
  rewrite take_take. f_equal. lia.
Qed.

(** The units and the retained bytes, put back together, are the bytes of
    the buffer from its first start position on. *)
Lemma units_between_concat (buf : list Z) (i : nat) (q0 : nat * nat)
    (sp : list (nat * nat)) :
  spaced i (q0 :: sp) →
  concat (units_between buf (q0 :: sp))
    ++ drop (List.last (q0 :: sp) (0, 0)%nat).1 buf = drop q0.1 buf.
Proof.
  revert i q0. induction sp as [|q sp IH]; intros i q0 Hsp; [done|].
  change (units_between buf (q0 :: q :: sp))
    with (slice buf q0.1 q.1 :: units_between buf (q :: sp)).
  change (List.last (q0 :: q :: sp) (0, 0)%nat) with (List.last (q :: sp) (0, 0)%nat).
  destruct Hsp as [_ Hsp]. 
  cbn [concat]. rewrite <- app_assoc, (IH _ _ Hsp).
  destruct Hsp as [Hle _]. unfold slice.
  replace (drop q.1 buf) with (drop (q.1 - q0.1) (drop q0.1 buf))
    by (rewrite drop_drop; f_equal; lia).
  apply take_drop.
Qed.

Lemma slice3_lookup (buf : list Z) (i : nat) (x y z : Z) :
  slice buf i (i + 3) = [x; y; z] ↔
  buf !! i = Some x ∧ buf !! (i + 1)%nat = Some y ∧ buf !! (i + 2)%nat = Some z.
Proof.
  unfold slice. replace (i + 3 - i)%nat with 3%nat by lia.
  replace i with (i + 0)%nat at 2 by lia.
  rewrite <- !lookup_drop.
  destruct (drop i buf) as [|a [|b [|c r]]]; simpl; naive_solver.
Qed.

Lemma slice4_lookup (buf : list Z) (i : nat) (w x y z : Z) :
  slice buf i (i + 4) = [w; x; y; z] ↔
  buf !! i = Some w ∧ buf !! (i + 1)%nat = Some x ∧ buf !! (i + 2)%nat = Some y
  ∧ buf !! (i + 3)%nat = Some z.
Proof.
  unfold slice. replace (i + 4 - i)%nat with 4%nat by lia.
  replace i with (i + 0)%nat at 2 by lia.
  rewrite <- !lookup_drop.
  destruct (drop i buf) as [|a [|b [|c [|d r]]]]; simpl; naive_solver.
Qed.

Lemma marker_at_lookup (buf : list Z) (q : nat) :
  marker_at buf q = true ↔
  buf !! q = Some 0 ∧ buf !! (q + 1)%nat = Some 0 ∧ buf !! (q + 2)%nat = Some 1.
Proof.
  unfold marker_at, START3. rewrite bool_decide_eq_true. apply slice3_lookup.
Qed.

Lemma markers_from_step (buf : list Z) (i : nat) :
  (i < length buf)%nat →
  markers_from buf i =
    ((if marker_at buf i then 1 else 0) + markers_from buf (i + 1))%nat.
Proof.
  intros Hi. unfold markers_from.
  replace (length buf - i)%nat with (S (length buf - (i + 1))) by lia.
  rewrite <- cons_seq. cbn [List.filter].
  replace (S i) with (i + 1)%nat by lia.
  by destruct (marker_at buf i).
Qed.

Lemma markers_from_end (buf : list Z) (i : nat) :
  (length buf < i + 3)%nat → markers_from buf i = 0%nat.
Proof.
  remember (length buf - i)%nat as n eqn:Hn. revert i Hn.
  induction n as [|n IH]; intros i Hn Hi.
  - unfold markers_from. by rewrite <- Hn.
  - rewrite markers_from_step by lia. rewrite (IH (i + 1)%nat) by lia.
    destruct (marker_at buf i) eqn:E; [|done].
    apply marker_at_lookup in E as (_ & _ & E).
    apply lookup_lt_Some in E. lia.
Qed.

Ltac norm_idx :=
  rewrite <- ?Nat.add_assoc in *; cbn [Nat.add] in *.

(** Settles a case in which the length is [i + k] for some small [k]. *)
Ltac pin_length buf i :=
  let Hl := fresh "Hl" in
  assert (Hl : length buf = (i + 4)%nat ∨ length buf = (i + 5)%nat
               ∨ length buf = (i + 6)%nat ∨ length buf = (i + 7)%nat) by lia;
  destruct Hl as [Hl|[Hl|[Hl|Hl]]]; rewrite !Hl in *;
  [ replace (i + 4 - 3)%nat with (i + 1)%nat in * by lia;
    replace (i + 4 - 4)%nat with i in * by lia
  | replace (i + 5 - 3)%nat with (i + 2)%nat in * by lia;
    replace (i + 5 - 4)%nat with (i + 1)%nat in * by lia
  | replace (i + 6 - 3)%nat with (i + 3)%nat in * by lia;
    replace (i + 6 - 4)%nat with (i + 2)%nat in * by lia
  | replace (i + 7 - 3)%nat with (i + 4)%nat in * by lia;
    replace (i + 7 - 4)%nat with (i + 3)%nat in * by lia ];
  norm_idx; try congruence; try lia.

Ltac pending_cases buf i j :=
  unfold pending;
  destruct (marker_at buf (length buf - 3)) eqn:Em; [|done];
  apply marker_at_lookup in Em as (E0 & E1 & E2);
  cbn [andb];
  destruct (Nat.leb_spec (i + 3) (length buf)); [|lia];
  destruct (Nat.eqb_spec (i + 3) (length buf)); [lia|];
  destruct (Nat.leb_spec (j + 3) (length buf));
  destruct (Nat.eqb_spec (j + 3) (length buf));
  cbn [andb orb negb]; try done; try lia;
  try case_bool_decide; cbn [negb]; try done; try (pin_length buf i).

Lemma pending_skip4 (buf : list Z) (i : nat) :
  (i + 3 < length buf)%nat → slice buf i (i + 4) = START4 →
  pending buf i = pending buf (i + 4).
Proof.
  intros Hi (F0 & F1 & F2 & F3)%slice4_lookup.
  pending_cases buf i (i + 4)%nat.
Qed.

Lemma pending_skip3 (buf : list Z) (i : nat) :
  (i + 3 < length buf)%nat → slice buf i (i + 3) = START3 →
  pending buf i = pending buf (i + 3).
Proof.
  intros Hi (F0 & F1 & F2)%slice3_lookup.
  pending_cases buf i (i + 3)%nat.
Qed.

Lemma pending_skip1 (buf : list Z) (i : nat) :
  (i + 3 < length buf)%nat → slice buf i (i + 4) ≠ START4 →
  pending buf i = pending buf (i + 1).
Proof.
  intros Hi F. unfold START4 in F. rewrite slice4_lookup in F.
  pending_cases buf i (i + 1)%nat.
  all: exfalso; apply F; repeat split; congruence.
Qed.

Ltac no_marker buf q :=
  let E := fresh "E" in
  destruct (marker_at buf q) eqn:E;
  [ apply marker_at_lookup in E as (? & ? & ?); norm_idx; congruence | ].

Lemma markers_skip4 (buf : list Z) (i : nat) :
  (i + 3 < length buf)%nat → slice buf i (i + 4) = START4 →
  markers_from buf i = S (markers_from buf (i + 4)).
Proof.
  intros Hi (F0 & F1 & F2 & F3)%slice4_lookup.
  rewrite (markers_from_step buf i), (markers_from_step buf (i + 1)),
    (markers_from_step buf (i + 1 + 1)), (markers_from_step buf (i + 1 + 1 + 1))
    by lia.
  replace (i + 1 + 1 + 1 + 1)%nat with (i + 4)%nat by lia.
  assert (E : marker_at buf (i + 1) = true)
    by (apply marker_at_lookup; norm_idx; done).
  rewrite E.
  no_marker buf i. no_marker buf (i + 1 + 1)%nat.
  no_marker buf (i + 1 + 1 + 1)%nat. done.
Qed.

Lemma markers_skip3 (buf : list Z) (i : nat) :
  (i + 3 < length buf)%nat → slice buf i (i + 3) = START3 →
  markers_from buf i = S (markers_from buf (i + 3)).
Proof.
  intros Hi (F0 & F1 & F2)%slice3_lookup.
  rewrite (markers_from_step buf i), (markers_from_step buf (i + 1)),
    (markers_from_step buf (i + 1 + 1)) by lia.
  replace (i + 1 + 1 + 1)%nat with (i + 3)%nat by lia.
  assert (E : marker_at buf i = true) by (apply marker_at_lookup; done).
  rewrite E.
  no_marker buf (i + 1)%nat. no_marker buf (i + 1 + 1)%nat. done.
Qed.

(** The scan finds every start marker from [i] on, but for a pending one. *)
Lemma scan_count (buf : list Z) (i : nat) :
  (length (scan buf i) + pending buf i)%nat = markers_from buf i.
Proof.
  induction i as [i IH] using (scan_ind buf).
  rewrite scan_eq. destruct (Nat.ltb_spec (i + 3) (length buf)) as [H|H].
  - specialize (IH H). repeat case_bool_decide.
    + rewrite markers_skip4, pending_skip4 by done.
      cbn [length]. rewrite <- (IH (i + 4)%nat) by lia. done.
    + rewrite markers_skip3, pending_skip3 by done.
      cbn [length]. rewrite <- (IH (i + 3)%nat) by lia. done.
    + rewrite pending_skip1, markers_from_step by (done || lia).
      rewrite (IH (i + 1)%nat) by lia.
      by rewrite (bool_decide_eq_false_2 _ ltac:(eassumption)
                  : marker_at buf i = false).
  - cbn [length Nat.add]. unfold pending.
    destruct (Nat.leb_spec (i + 3) (length buf)) as [Hle|Hgt].
    + assert (Hlen : length buf = (i + 3)%nat) by lia.
      rewrite markers_from_step, (markers_from_end buf (i + 1)) by lia.
      rewrite Hlen. replace (i + 3 - 3)%nat with i by lia.
      rewrite Nat.eqb_refl. by destruct (marker_at buf i).
    + rewrite andb_false_r, markers_from_end by lia. done.
Qed.

(** The scan of a whole buffer misses a start marker only when the buffer
    ends with a 3-byte marker that no zero byte precedes. *)
Lemma start_positions_count (buf : list Z) :
  length (start_positions buf) =
    (marker_count buf - if ends_with_short_marker buf then 1 else 0)%nat.
Proof.
  pose proof (scan_count buf 0) as Hc.
  unfold start_positions, marker_count. fold (scan buf 0).
  replace (if ends_with_short_marker buf then 1 else 0)%nat with (pending buf 0);
    [lia|].
  clear Hc. unfold pending, ends_with_short_marker. cbn [Nat.add].
  destruct (Nat.leb_spec 3 (length buf)) as [H3|H3].
  - assert (Hm : bool_decide (slice buf (length buf - 3) (length buf) = START3)
                 = marker_at buf (length buf - 3)).
    { unfold marker_at. by replace (length buf - 3 + 3)%nat with (length buf) by lia. }
    rewrite Hm.
    destruct (marker_at buf (length buf - 3)) eqn:Em; [|done].
    cbn [andb]. destruct (Nat.eqb_spec 3 (length buf)) as [He|Hne].
    + cbn [orb]. rewrite bool_decide_eq_false_2; [done|].
      intros E%(f_equal length). unfold slice in E.
      rewrite length_take, length_drop in E. simpl in E. lia.
    + cbn [orb]. apply marker_at_lookup in Em as (E0 & E1 & E2).
      replace (slice buf (length buf - 4) (length buf))
        with (slice buf (length buf - 4) (length buf - 4 + 4)) by (f_equal; lia).
      replace (length buf - 3)%nat with (length buf - 4 + 1)%nat in * by lia.
      norm_idx. unfold START4.
      repeat case_bool_decide; try done.
      * exfalso. rewrite slice4_lookup in *. norm_idx. naive_solver.
      * exfalso. rewrite slice4_lookup in *. naive_solver.
  - rewrite andb_false_r.
    rewrite (bool_decide_eq_false_2
               (slice buf (length buf - 3) (length buf) = START3)); [done|].
    intros E%(f_equal length). unfold slice in E.
    rewrite length_take, length_drop in E. simpl in E. lia.
Qed.

(** *** The claims about the framer *)

(** C1, as claimed, fails: [00 00 01 AA 00 00 01] contains two start
    markers, yet the framer yields no unit from it, whether it is fed in
    one ingestion or in two; the claim promises one unit. *)
Lemma framer_misses_trailing_marker :
  let whole := [0; 0; 1; 170; 0; 0; 1] in
  marker_count whole = 2%nat
  ∧ feed [] [whole] = ([], whole)
  ∧ feed [] [[0; 0; 1; 170]; [0; 0; 1]] = ([], whole)
  ∧ length (feed [] [whole]).1 ≠ (marker_count whole - 1)%nat.
Proof. vm_compute. repeat split; congruence. Qed.

(** C1, amended.  Let a byte sequence be split in any way into chunks that
    are fed to the framer one after the other, starting from the empty
    buffer, and let N be the number of start positions the scan of
    [_extract_nal_units] locates in the whole sequence: that is the number
    of start markers of the sequence, less one when the sequence ends with
    a 3-byte marker that no zero byte precedes (such a marker is located
    once a further byte has arrived).  If N >= 2, then N - 1 units are
    yielded in total; the k-th unit spans from the k-th start position to
    the byte before the next one, begins with the marker found at its
    start position and is followed by the next marker; the buffer retains
    the bytes from the last start position on; and the units followed by
    the buffer are the bytes of the sequence from the first start position
    on, each once. *)
Theorem feed_yields_units (chunks : list (list Z)) :
  let whole := concat chunks in
  let sp := start_positions whole in
  (2 ≤ length sp)%nat →
  length sp
    = (marker_count whole - if ends_with_short_marker whole then 1 else 0)%nat
  ∧ length (feed [] chunks).1 = (length sp - 1)%nat
  ∧ (∀ k p q, sp !! k = Some p → sp !! S k = Some q →
       (feed [] chunks).1 !! k = Some (slice whole p.1 q.1)
       ∧ take p.2 (slice whole p.1 q.1) = marker_of p.2
       ∧ slice whole q.1 (q.1 + q.2) = marker_of q.2)
  ∧ (feed [] chunks).2 = drop (List.last sp (0, 0)%nat).1 whole
  ∧ concat (feed [] chunks).1 ++ (feed [] chunks).2
      = drop (hd (0, 0)%nat sp).1 whole.
Proof.
  intros whole sp Hn.
  rewrite feed_extract, extract_eq. fold whole. cbv zeta.
  change (scan whole 0) with sp.
  destruct (Nat.ltb_spec (length sp) 2) as [?|_]; [lia|]. cbn [fst snd].
  pose proof (scan_marker whole 0) as Hmark.
  pose proof (scan_spaced whole 0) as Hsp.
  change (scan whole 0) with sp in Hmark, Hsp.
  split; [apply start_positions_count|].
  split; [apply units_between_length|].
  split; [|split; [done|]].
  - intros k p q Hp Hq.
    rewrite Forall_lookup in Hmark.
    split; [by apply units_between_lookup|].
    split; [|by apply (Hmark (S k))].
    apply slice_marker; [by apply (Hmark k)|].
    by apply (spaced_lookup 0 k sp).
  - destruct sp as [|q0 sp']; [simpl in Hn; lia|].
    by apply (units_between_concat whole 0).
Qed.

(** A run of the framer on a stream cut in the middle of its markers. *)
Lemma feed_yields_units_witness :
  let chunks := [[9; 0; 0; 1; 103; 0]; [0; 0]; [1; 104; 5; 0; 0; 1]; [101]] in
  (2 ≤ length (start_positions (concat chunks)))%nat
  ∧ length (feed [] chunks).1 = (length (start_positions (concat chunks)) - 1)%nat.
Proof.
  intros chunks.
  assert (H : (2 ≤ length (start_positions (concat chunks)))%nat)
    by (vm_compute; lia).
  split; [exact H|].
  exact (proj1 (proj2 (feed_yields_units chunks H))).
Defined.

(** C2, as claimed, fails: the unit [00 00 01 67] begins with a start
    marker followed by one byte whose low 5 bits are 7, and is not
    classified as an SPS. *)
Lemma short_unit_not_classified :
  let data := [0; 0; 1; 103] in
  take 3 data = START3
  ∧ Z.land (nth 3 data 0) 31 = 7
  ∧ _get_nal_type data = -1
  ∧ _is_sps data = false.
Proof. vm_compute. done. Qed.

(** C2, amended.  For every unit of at least 5 bytes that begins with a
    start marker, the classifiers report the low 5 bits of the byte that
    follows the marker: 7 is an SPS, 8 a PPS, 5 a keyframe, any other
    value none of the three.  A unit of fewer than 5 bytes is none of the
    three, whatever it holds. *)
Theorem nal_type_of_unit (data : list Z) (l : nat) :
  (l = 3 ∨ l = 4)%nat → take l data = marker_of l →
  ((5 ≤ length data)%nat →
     let t := Z.land (nth l data 0) 31 in
     _get_nal_type data = t
     ∧ _is_sps data = (t =? 7) ∧ _is_pps data = (t =? 8)
     ∧ _is_keyframe data = (t =? 5)
     ∧ (t ≠ 7 → t ≠ 8 → t ≠ 5 →
        _is_sps data = false ∧ _is_pps data = false ∧ _is_keyframe data = false))
  ∧ ((length data < 5)%nat →
     _get_nal_type data = -1
     ∧ _is_sps data = false ∧ _is_pps data = false ∧ _is_keyframe data = false).
Proof.
  intros Hl Hm. split.
  - intros Hlen t.
    assert (Ht : _get_nal_type data = t).
    { unfold _get_nal_type, slice.
      destruct (Nat.ltb_spec (length data) 5) as [?|_]; [lia|].
      rewrite !drop_0, !Nat.sub_0_r.
      destruct Hl as [-> | ->]; subst t.
      - rewrite bool_decide_eq_false_2.
        + by rewrite bool_decide_eq_true_2.
        + intros E. unfold marker_of, START3, START4 in *.
          destruct data as [|a [|b [|c [|d r]]]]; simpl in *; congruence.
      - by rewrite bool_decide_eq_true_2. }
    unfold _is_sps, _is_pps, _is_keyframe. rewrite Ht.
    repeat split; try done; by apply Z.eqb_neq.
  - intros Hlen. unfold _is_sps, _is_pps, _is_keyframe, _get_nal_type.
    destruct (Nat.ltb_spec (length data) 5) as [_|?]; [done|lia].
Qed.

(** An SPS as scrcpy sends it, behind a 4-byte marker. *)
Lemma nal_type_of_unit_witness :
  let data := [0; 0; 0; 1; 103; 66; 192; 41] in
  take 4 data = marker_of 4 ∧ (5 ≤ length data)%nat ∧ _is_sps data = true.
Proof.
  intros data.
  assert (Hm : take 4 data = marker_of 4) by done.
  assert (Hlen : (5 ≤ length data)%nat) by (simpl; lia).
  split; [exact Hm|]. split; [exact Hlen|].
  exact (proj1 (proj2 (proj1 (nal_type_of_unit data 4 (or_intror eq_refl) Hm) Hlen))).
Defined.

End NalFacts.

(** ** Facts about pointer events *)

Module GestureFacts.
Import Bridge.

Open Scope float_scope.

Lemma is_str_up_down : is_str (JStr "up") "down" = false.
Proof. done. Qed.

Lemma is_str_up_move : is_str (JStr "up") "move" = false.
Proof. done. Qed.

Lemma is_str_up_up : is_str (JStr "up") "up" = true.
Proof. done. Qed.

Lemma touch_states_sized (st : bridge) (e : env) :
  _touch_states (sized st e).1 = _touch_states st.
Proof. unfold sized. by destruct (_ =? _)%Z. Qed.

Lemma physical_sized (st : bridge) (e : env) :
  (_physical_width (sized st e).1, _physical_height (sized st e).1)
  = physical st e.
Proof.
  unfold sized, physical. destruct (_ =? _)%Z; [|done]. by destruct (screen e).
Qed.

(** [_send_touch] on a valid position, for a viewer with a touch state. *)
Lemma send_touch_known (st : bridge) (client : nat) (action : json)
    (x y : float) (e : env) (info : DeviceInfo) (ts : TouchState) :
  device_info st = Some info →
  in_unit x = true → in_unit y = true →
  _touch_states st !! client = Some ts →
  _send_touch st client action x y e =
    let st0 := (sized st e).1 in
    let effs := (sized st e).2 in
    let cleared :=
      set_touch_states st0
        (<[client := {| start_pos := None; start_time := start_time ts |}]>
           (_touch_states st0)) in
    let k := if start_pos ts is Some _ then 1%nat else 0%nat in
    if match start_pos ts with
       | Some _ => PrimFloat.ltb TOUCH_TIMEOUT (clock e 0 - start_time ts)
       | None => false
       end
    then (cleared, effs ++ [Log Warning TouchCancelled])
    else if is_str action "down" then
      (set_touch_states st0
         (<[client := {| start_pos := Some (x, y); start_time := clock e k |}]>
            (_touch_states st0)), effs)
    else if is_str action "move" then (st0, effs)
    else if is_str action "up" then
      match start_pos ts with
      | None => (st0, effs)
      | Some (start_x, start_y) =>
          let duration := clock e k - start_time ts in
          (cleared,
           effs ++ [Shell (gesture_command (half_power e) st0 start_x start_y
                                           x y duration);
                    if shell_ok e then
                      Log Info (if is_swipe (half_power e) start_x start_y x y
                                            duration
                                then SentSwipe else SentTap)
                    else Log Warning FailedToSendTouch])
      end
    else (st0, effs).
Proof.
  intros Hinfo Hx Hy Hts. unfold _send_touch, sized.
  rewrite Hinfo, Hx, Hy. cbn [andb negb].
  destruct (_physical_width st =? 0)%Z.
  - simpl. rewrite Hts. simpl. rewrite Hts. done.
  - simpl. rewrite Hts. simpl. rewrite Hts. done.
Qed.

Lemma input_commands_app (effs effs' : list effect) :
  input_commands (effs ++ effs') = input_commands effs ++ input_commands effs'.
Proof.
  unfold input_commands, shell_commands.
  by rewrite omap_app, List.filter_app.
Qed.

Lemma input_commands_sized (st : bridge) (e : env) :
  input_commands (sized st e).2 = [].
Proof. unfold sized. by destruct (_ =? _)%Z. Qed.

(** C3.  A pointer-up that resolves a recorded pointer-down, [duration > 0]
    seconds after it, is a swipe exactly when the velocity
    [distance / duration] exceeds 0.3, or the distance exceeds 0.03 and the
    duration exceeds 0.4; otherwise it is a tap.  The distance is what
    [(dx * dx + dy * dy) ** 0.5] evaluates to, whatever the platform's
    power function makes of it.  A tap is sent at the up-position, a swipe
    from the down-position to the up-position over 200 ms, in device
    pixels; no other input command is sent. *)
Theorem up_resolves_gesture (st : bridge) (client : nat) (x y : float)
    (e : env) (info : DeviceInfo) (start_x start_y t0 : float) :
  device_info st = Some info →
  in_unit x = true → in_unit y = true →
  _touch_states st !! client
    = Some {| start_pos := Some (start_x, start_y); start_time := t0 |} →
  PrimFloat.ltb TOUCH_TIMEOUT (clock e 0 - t0) = false →
  PrimFloat.ltb 0 (clock e 1 - t0) = true →
  let duration := clock e 1 - t0 in
  let dx := x - start_x in
  let dy := y - start_y in
  let distance := half_power e (dx * dx + dy * dy) in
  let velocity := distance / duration in
  let swipe :=
    (PrimFloat.ltb 0.3 velocity
     || (PrimFloat.ltb 0.03 distance && PrimFloat.ltb 0.4 duration))%bool in
  let w := float_of_int (physical st e).1 in
  let h := float_of_int (physical st e).2 in
  input_commands (_send_touch st client (JStr "up") x y e).2
  = [if swipe then
       InputSwipe (int_of_float (start_x * w)) (int_of_float (start_y * h))
                  (int_of_float (x * w)) (int_of_float (y * h)) 200
     else InputTap (int_of_float (x * w)) (int_of_float (y * h))].
Proof.
  intros Hinfo Hx Hy Hts Hfresh Hpos. cbv zeta.
  rewrite (send_touch_known st client _ x y e info _ Hinfo Hx Hy Hts).
  cbv zeta. cbn [start_pos start_time]. rewrite Hfresh.
  rewrite is_str_up_down, is_str_up_move, is_str_up_up. cbn [snd].
  rewrite input_commands_app, input_commands_sized. cbn [app].
  unfold gesture_command. rewrite <- physical_sized. cbn [fst snd].
  unfold is_swipe. rewrite Hpos.
  unfold SWIPE_VELOCITY_THRESHOLD, SWIPE_DISTANCE_THRESHOLD,
    SWIPE_MAX_TAP_DURATION.
  by destruct (_ || _)%bool, (shell_ok e).
Qed.

(** A release 0.4 away, a tenth of a second after the press: a swipe. *)
Lemma up_resolves_gesture_witness :
  device_info pressed = Some sample_device
  ∧ _touch_states pressed !! 1%nat
    = Some {| start_pos := Some (0.5, 0.5); start_time := 1000 |}
  ∧ PrimFloat.ltb TOUCH_TIMEOUT (1000.1 - 1000) = false
  ∧ PrimFloat.ltb 0 (1000.1 - 1000) = true
  ∧ input_commands
      (_send_touch pressed 1 (JStr "up") 0.9 0.5 (at_time 1000.1)).2
    = [InputSwipe 540 1170 972 1170 200].
Proof.
  do 4 (split; [reflexivity|]).
  exact (up_resolves_gesture pressed 1 0.9 0.5 (at_time 1000.1) sample_device
           0.5 0.5 1000 eq_refl eq_refl eq_refl eq_refl eq_refl eq_refl).
Defined.

(** C4, as claimed, fails: for the press at (0.5, 0.5) released at
    (0.52, 0.5) after 0.05 s the bridge sends a swipe, and no tap. *)
Lemma quick_short_move_is_not_a_tap :
  let effs := (_send_touch pressed 1 (JStr "up") 0.52 0.5 (at_time 1000.05)).2 in
  effs = [Shell (InputSwipe 540 1170 561 1170 200); Log Info SentSwipe]
  ∧ input_commands effs ≠ [InputTap 561 1170].
Proof. vm_compute. split; [done|congruence]. Qed.

(** C4, amended.  A pointer-down at (0.5, 0.5) followed by a pointer-up at
    (0.52, 0.5) after 0.05 s is below the distance threshold 0.03 and
    below the tap duration 0.4 s, but its velocity, 0.4, exceeds the
    velocity threshold 0.3: it is classified as a swipe, and a swipe
    command from the down-position to the up-position over 200 ms is
    sent (on the 1080x2340 sample device, from (540, 1170) to
    (561, 1170)). *)
Theorem quick_short_move_is_a_swipe :
  let duration := 1000.05 - 1000 in
  let distance := PrimFloat.sqrt ((0.52 - 0.5) * (0.52 - 0.5) + (0.5 - 0.5) * (0.5 - 0.5)) in
  _touch_states pressed !! 1%nat
    = Some {| start_pos := Some (0.5, 0.5); start_time := 1000 |}
  ∧ PrimFloat.ltb SWIPE_DISTANCE_THRESHOLD distance = false
  ∧ PrimFloat.ltb SWIPE_MAX_TAP_DURATION duration = false
  ∧ PrimFloat.ltb SWIPE_VELOCITY_THRESHOLD (distance / duration) = true
  ∧ is_swipe (half_power (at_time 1000.05)) 0.5 0.5 0.52 0.5 duration = true
  ∧ input_commands
      (_send_touch pressed 1 (JStr "up") 0.52 0.5 (at_time 1000.05)).2
    = [InputSwipe 540 1170 561 1170 200].
Proof. vm_compute. done. Qed.

(** C6, as claimed, fails: a pointer-down that arrives 6 s after an
    unresolved one discards the stale state, but is not recorded in its
    place. *)
Lemma stale_down_is_not_recorded :
  let o := _send_touch pressed 1 (JStr "down") 0.7 0.7 (at_time 1006) in
  o.2 = [Log Warning TouchCancelled]
  ∧ _touch_states o.1 !! 1%nat = Some {| start_pos := None; start_time := 1000 |}
  ∧ _touch_states o.1 !! 1%nat
    ≠ Some {| start_pos := Some (0.7, 0.7); start_time := 1006 |}.
Proof. vm_compute. repeat split; congruence. Qed.

(** C6, amended.  When a pointer event (down, move or up) at a valid
    position arrives for a viewer whose recorded unresolved pointer-down is
    older than 5 seconds, the stale state is discarded without any input
    command being sent, and the event itself is not processed: a new
    pointer-down is not recorded, and the viewer has no recorded
    pointer-down afterwards. *)
Theorem stale_touch_is_dropped (st : bridge) (client : nat) (action : json)
    (x y : float) (e : env) (info : DeviceInfo) (start_x start_y t0 : float) :
  device_info st = Some info →
  in_unit x = true → in_unit y = true →
  _touch_states st !! client
    = Some {| start_pos := Some (start_x, start_y); start_time := t0 |} →
  PrimFloat.ltb TOUCH_TIMEOUT (clock e 0 - t0) = true →
  let o := _send_touch st client action x y e in
  input_commands o.2 = []
  ∧ Log Warning TouchCancelled ∈ o.2
  ∧ _touch_states o.1 !! client = Some {| start_pos := None; start_time := t0 |}.
Proof.
  intros Hinfo Hx Hy Hts Hstale. cbv zeta.
  rewrite (send_touch_known st client _ x y e info _ Hinfo Hx Hy Hts).
  cbv zeta. cbn [start_pos start_time]. rewrite Hstale. cbn [fst snd].
  split; [|split].
  - by rewrite input_commands_app, input_commands_sized.
  - apply elem_of_app. right. by apply list_elem_of_singleton.
  - cbn [set_touch_states _touch_states]. by rewrite lookup_insert_eq.
Qed.

Lemma stale_touch_is_dropped_witness :
  PrimFloat.ltb TOUCH_TIMEOUT (1006 - 1000) = true
  ∧ _touch_states
      (_send_touch pressed 1 (JStr "down") 0.7 0.7 (at_time 1006)).1 !! 1%nat
    = Some {| start_pos := None; start_time := 1000 |}.
Proof.
  split; [reflexivity|].
  exact (proj2 (proj2
    (stale_touch_is_dropped pressed 1 (JStr "down") 0.7 0.7 (at_time 1006)
       sample_device 0.5 0.5 1000 eq_refl eq_refl eq_refl eq_refl eq_refl))).
Defined.




End GestureFacts.

(** ** Facts about the fan-out to the viewers *)

Module HubFacts.
Import Bridge.

Lemma run_app (st : bridge) (evs evs' : list event) :
  run st (evs ++ evs') =
    let '(st', effs) := run st evs in
    let '(st'', effs') := run st' evs' in
    (st'', effs ++ effs').
Proof.
  revert st. induction evs as [|ev evs IH]; intros st; simpl.
  - by destruct (run st evs').
  - destruct (step st ev) as [st1 e1]. rewrite IH.
    destruct (run st1 evs) as [st2 e2]. destruct (run st2 evs') as [st3 e3].
    by rewrite app_assoc.
Qed.

Lemma received_app (c : nat) (effs effs' : list effect) :
  received c (effs ++ effs') = received c effs ++ received c effs'.
Proof.
  induction effs as [|eff effs IH]; [done|].
  destruct eff; simpl; try done. case_bool_decide; simpl; by rewrite IH.
Qed.

(** Among the sends of one fan-out, a viewer of the set whose send returns
    gets the unit once. *)
Lemma received_sends (c : nat) (m : message) (fails : nat → bool)
    (receivers : list nat) :
  NoDup receivers → c ∈ receivers → fails c = false →
  received c (flat_map (λ c', if fails c' then [] else [Send c' m]) receivers)
  = [m].
Proof.
  intros Hnd Hin Hok. induction Hnd as [|c' l Hnotin Hnd IH]; [by inversion Hin|].
  cbn [flat_map]. rewrite received_app.
  apply elem_of_cons in Hin as [->|Hin].
  - rewrite Hok. simpl. rewrite bool_decide_eq_true_2 by done. f_equal.
    clear IH Hnd. induction l as [|d l IHl]; [done|].
    apply not_elem_of_cons in Hnotin as [Hne Hnotin].
    cbn [flat_map]. rewrite received_app, IHl by done.
    destruct (fails d); simpl; [done|]. by rewrite bool_decide_eq_false_2.
  - rewrite IH by done.
    destruct (fails c'); simpl; [done|].
    rewrite bool_decide_eq_false_2; [done|]. by intros ->.
Qed.

(** A viewer whose send raises, or that is not in the set, gets nothing. *)
Lemma received_sends_none (c : nat) (m : message) (fails : nat → bool)
    (receivers : list nat) :
  fails c = true ∨ c ∉ receivers →
  received c (flat_map (λ c', if fails c' then [] else [Send c' m]) receivers)
  = [].
Proof.
  intros Hc. induction receivers as [|d l IH]; [done|].
  cbn [flat_map]. rewrite received_app, IH.
  - destruct (fails d) eqn:Hd; simpl; [done|].
    rewrite bool_decide_eq_false_2; [done|]. intros ->.
    destruct Hc as [Hc|Hc]; [congruence|]. apply Hc. by left.
  - destruct Hc as [Hc|Hc]; [by left|]. right. by apply not_elem_of_cons in Hc as [_ ?].
Qed.

Lemma received_warnings (c : nat) (fails : nat → bool) (receivers : list nat) :
  received c
    (flat_map (λ c', if fails c' then [Log Warning FailedToSendToClient] else [])
              receivers) = [].
Proof.
  induction receivers as [|d l IH]; [done|].
  cbn [flat_map]. rewrite received_app, IH. by destruct (fails d).
Qed.

Lemma received_unit (st : bridge) (u : list Z) (fails : nat → bool) (c : nat) :
  received c (process_nal_unit st u fails).2 =
    if bool_decide (c ∈ clients st ∧ fails c = false) then [MsgBinary u] else [].
Proof.
  unfold process_nal_unit. cbn [snd].
  rewrite !received_app, received_warnings, app_nil_r.
  assert (Hlogs : received c
            ((if Nal._is_sps u then [Log Info CachedSps] else [])
             ++ (if Nal._is_pps u then [Log Info CachedPps] else [])) = []).
  { by destruct (Nal._is_sps u), (Nal._is_pps u). }
  rewrite <- received_app, Hlogs. cbn [app].
  case_bool_decide as Hc.
  - destruct Hc as [Hin Hok]. apply received_sends; [apply NoDup_elements| |done].
    by apply elem_of_elements.
  - apply received_sends_none.
    destruct (fails c) eqn:Hf; [by left|]. right.
    rewrite elem_of_elements. naive_solver.
Qed.

(** The fan-out leaves the set of viewers and their touch states as they
    are. *)
Lemma process_unit_keeps (st : bridge) (u : list Z) (fails : nat → bool) :
  clients (process_nal_unit st u fails).1 = clients st
  ∧ _touch_states (process_nal_unit st u fails).1 = _touch_states st
  ∧ device_info (process_nal_unit st u fails).1 = device_info st.
Proof. done. Qed.

(** A viewer of the fan-out set receives the units processed while its
    sends return, in the order in which they are processed. *)
Lemma received_units (st : bridge) (c : nat)
    (units : list (list Z * (nat → bool))) :
  c ∈ clients st → Forall (λ uf, uf.2 c = false) units →
  received c (run st (unit_events units)).2 = map (λ uf, MsgBinary uf.1) units.
Proof.
  revert st. induction units as [|[u fails] units IH]; intros st Hin Hok; [done|].
  inversion Hok as [|? ? Hu Hok']; subst. cbn [unit_events map run step fst snd].
  pose proof (received_unit st u fails c) as Hr.
  destruct (process_nal_unit st u fails) as [st1 e1] eqn:Hp.
  assert (Hcl : clients st1 = clients st)
    by (by rewrite <- (proj1 (process_unit_keeps st u fails)), Hp).
  specialize (IH st1). fold (unit_events units) in *.
  destruct (run st1 (unit_events units)) as [st2 e2].
  cbn [snd] in *. rewrite received_app, Hr, IH; [|by rewrite Hcl|done].
  by rewrite bool_decide_eq_true_2.
Qed.

Lemma catch_up_order_seen (ms : list message) :
  catch_up_order true true true ms = true.
Proof.
  induction ms as [|m ms IH]; [done|].
  destruct m; simpl; try done. by destruct (_ || _)%bool.
Qed.

(** C5, as claimed, fails.  The bridge sends every unit to every viewer of
    the fan-out set, whatever its type, and a viewer enters the set before
    its catch-up messages are sent.  So a viewer that joins before any
    parameter set was seen receives a delta unit first when the stream
    brings one; and a viewer that joins after both parameter sets and a
    keyframe were cached receives a delta unit before all its catch-up
    messages when the video loop processes that unit between the
    admission and the first catch-up send. *)
Lemma delta_before_parameter_sets :
  (let effs := (run sample_bridge (join 1 ++ [Unit delta_unit no_failure])).2 in
   received 1 effs = [MsgDeviceInfo sample_device; MsgBinary delta_unit]
   ∧ catch_up_order false false false (received 1 effs) = false)
  ∧ (let effs :=
       (run streaming
            [Connect 1; Unit delta_unit no_failure; SendDeviceInfo 1;
             SendSps 1; SendPps 1; SendKeyframe 1]).2 in
     received 1 effs
     = [MsgBinary delta_unit; MsgDeviceInfo sample_device; MsgBinary sps_unit;
        MsgBinary pps_unit; MsgBinary idr_unit]
     ∧ catch_up_order false false false (received 1 effs) = false).
Proof. vm_compute. done. Qed.

(** C5, amended.  A viewer that joins after an SPS, a PPS and a keyframe
    have been cached, with no unit processed between its admission and the
    last of its catch-up sends, receives, in order: device-info, the SPS,
    the PPS, the keyframe, and then exactly the units processed after its
    admission whose send to it returns, in the order of processing; so it
    receives no delta unit before both parameter sets and a keyframe.
    (Units are not gated by type: what an earlier joiner receives is the
    units processed after it joined.) *)
Theorem late_joiner_catches_up (st : bridge) (c : nat)
    (units : list (list Z * (nat → bool))) (info : DeviceInfo)
    (s p k : list Z) :
  device_info st = Some info →
  _sps st = Some s → _pps st = Some p → _last_keyframe st = Some k →
  Nal._is_sps s = true → Nal._is_pps p = true → Nal._is_keyframe k = true →
  Forall (λ uf, uf.2 c = false) units →
  let effs := (run st (join c ++ unit_events units)).2 in
  received c effs
  = [MsgDeviceInfo info; MsgBinary s; MsgBinary p; MsgBinary k]
    ++ map (λ uf, MsgBinary uf.1) units
  ∧ catch_up_order false false false (received c effs) = true.
Proof.
  intros Hinfo Hs Hp Hk Hts Htp Htk Hok. cbv zeta.
  assert (Hrecv : received c (run st (join c ++ unit_events units)).2
                  = [MsgDeviceInfo info; MsgBinary s; MsgBinary p; MsgBinary k]
                    ++ map (λ uf, MsgBinary uf.1) units).
  { rewrite run_app.
    destruct s as [|b0 s']; [done|]. destruct p as [|b1 p']; [done|].
    destruct k as [|b2 k']; [done|].
    unfold join. cbn [run step client_add].
    unfold send_device_info, send_cached.
    cbn [device_info _sps _pps _last_keyframe set_clients].
    rewrite Hinfo, Hs, Hp, Hk. cbn [app].
    pose proof (received_units (set_clients st ({[c]} ∪ clients st)) c units)
      as Hrest.
    destruct (run (set_clients st ({[c]} ∪ clients st)) (unit_events units))
      as [st' effs'].
    cbn [snd] in *. cbn [received].
    rewrite !bool_decide_eq_true_2 by done.
    rewrite Hrest; [done| |done]. cbn [set_clients clients]. set_solver. }
  split; [exact Hrecv|]. rewrite Hrecv.
  cbn [app catch_up_order]. rewrite Hts, Htp, Htk. cbn [orb].
  rewrite !orb_true_r. cbn [orb]. apply catch_up_order_seen.
Qed.

(** A viewer joins the streaming sample bridge; a delta unit follows. *)
Lemma late_joiner_catches_up_witness :
  _sps streaming = Some sps_unit ∧ Nal._is_sps sps_unit = true
  ∧ received 1 (run streaming (join 1 ++ unit_events [(delta_unit, no_failure)])).2
    = [MsgDeviceInfo sample_device; MsgBinary sps_unit; MsgBinary pps_unit;
       MsgBinary idr_unit; MsgBinary delta_unit].
Proof.
  do 2 (split; [reflexivity|]).
  assert (Hok : Forall (λ uf : list Z * (nat → bool), uf.2 1%nat = false)
                       [(delta_unit, no_failure)])
    by (repeat constructor).
  exact (proj1
    (late_joiner_catches_up streaming 1 [(delta_unit, no_failure)]
       sample_device sps_unit pps_unit idr_unit
       eq_refl eq_refl eq_refl eq_refl eq_refl eq_refl eq_refl Hok)).
Defined.

(** C8, as claimed, fails: after a fan-out in which the send to viewer 1
    raises, viewer 1 is still in the fan-out set and its touch state is
    still recorded. *)
Lemma failed_send_keeps_viewer :
  let o := process_nal_unit two_viewers delta_unit (failure_of 1) in
  elements (clients o.1) = elements (clients two_viewers)
  ∧ bool_decide (1%nat ∈ clients o.1) = true
  ∧ _touch_states o.1 !! 1%nat
    = Some {| start_pos := Some (0.5%float, 0.5%float); start_time := 1000 |}
  ∧ o.2 = [Send 2 (MsgBinary delta_unit); Log Warning FailedToSendToClient].
Proof. vm_compute. done. Qed.

(** C8, amended.  When the send of a unit to one viewer fails during the
    fan-out, the failure is logged and the viewer gets nothing of that
    unit; the fan-out set and the touch states are left as they are, so
    the viewer stays in the set with its gesture state until its
    connection handler ends, whose cleanup removes it from the set and
    releases its gesture state; the same unit and every later unit are
    delivered to every other viewer of the set whose send returns. *)
Theorem failed_send_is_isolated (st : bridge) (u : list Z) (fails : nat → bool)
    (c : nat) :
  c ∈ clients st → fails c = true →
  let o := process_nal_unit st u fails in
  clients o.1 = clients st
  ∧ _touch_states o.1 = _touch_states st
  ∧ Log Warning FailedToSendToClient ∈ o.2
  ∧ received c o.2 = []
  ∧ (∀ w later, w ∈ clients st → fails w = false →
       Forall (λ uf, uf.2 w = false) later →
       received w (run st (Unit u fails :: unit_events later)).2
       = (MsgBinary u :: map (λ uf, MsgBinary uf.1) later))
  ∧ (c ∉ clients (client_finally o.1 c))
  ∧ _touch_states (client_finally o.1 c) !! c = None.
Proof.
  intros Hin Hfail. cbv zeta.
  split; [done|]. split; [done|]. split; [|split; [|split; [|split]]].
  - unfold process_nal_unit. cbn [snd]. rewrite !elem_of_app. right. right.
    apply list_elem_of_In, in_flat_map. exists c.
    split; [by apply list_elem_of_In, elem_of_elements|]. rewrite Hfail. by left.
  - rewrite received_unit. rewrite bool_decide_eq_false_2; [done|].
    intros [_ ?]. congruence.
  - intros w later Hw Hok Hlater.
    apply (received_units st w ((u, fails) :: later)); [done|].
    by constructor.
  - cbn [client_finally set_touch_states set_clients clients]. set_solver.
  - cbn [client_finally set_touch_states _touch_states]. apply lookup_delete_eq.
Qed.

Lemma failed_send_is_isolated_witness :
  bool_decide (1%nat ∈ clients two_viewers) = true
  ∧ failure_of 1 1 = true
  ∧ received 1 (process_nal_unit two_viewers delta_unit (failure_of 1)).2 = [].
Proof.
  do 2 (split; [reflexivity|]).
  assert (Hin : 1%nat ∈ clients two_viewers)
    by (apply (bool_decide_unpack _); vm_compute; exact I).
  exact (proj1 (proj2 (proj2 (proj2
    (failed_send_is_isolated two_viewers delta_unit (failure_of 1) 1 Hin eq_refl))))).
Defined.

End HubFacts.


(** ** Facts about the control messages *)

Module RouterFacts.
Import Bridge.

(** A message that is not JSON is logged and dropped. *)
Lemma invalid_json_dropped (st : bridge) (client : nat) (e : env) :
  _handle_control_message st client Malformed e
  = returns st [Log Warning InvalidControlMessage].
Proof. done. Qed.

(** A touch message that lacks [action], [x] or [y] is logged and
    dropped. *)
Lemma missing_field_dropped (st : bridge) (client : nat) (e : env)
    (members : list (string * json)) :
  dict_get "type" members = Some (JStr "touch") →
  touch_fields members = inl KeyError →
  _handle_control_message st client (Parsed (JObj members)) e
  = returns st [Log Warning InvalidControlMessage].
Proof.
  intros Hty Hf. unfold _handle_control_message. rewrite Hty. cbn [default].
  replace (is_str (JStr "touch") "touch") with true by done.
  by rewrite Hf.
Qed.

(** A message of an unknown type is logged and dropped. *)
Lemma unknown_type_dropped (st : bridge) (client : nat) (e : env)
    (members : list (string * json)) (ty : string) :
  dict_get "type" members = Some (JStr ty) →
  ty ∉ ["touch"; "key"; "back"; "home"; "recents"; "chat"; "cancel";
        "new_session"] →
  _handle_control_message st client (Parsed (JObj members)) e
  = returns st [Log Info ReceivedControlMessage].
Proof.
  intros Hty Hun. unfold _handle_control_message. rewrite Hty.
  unfold default, is_str, id.
  rewrite !not_elem_of_cons in Hun. destruct Hun as (?&?&?&?&?&?&?&?&_).
  by rewrite !bool_decide_eq_false_2.
Qed.

(** C7, at a failing input.  A touch message whose [x] is a string makes
    the f-string of the log line raise [ValueError], and a message that is
    JSON but not an object makes [data.get] raise [AttributeError]; the
    handler catches [JSONDecodeError] and [KeyError] only, so the exception
    leaves it: nothing is logged, the message loop of the viewer ends, the
    messages that follow are not handled and the viewer is cleaned up, the
    connection being closed. *)
Theorem ill_typed_message_escapes (st : bridge) (client : nat) (e : env) :
  let touch :=
    Parsed (JObj [("type", JStr "touch"); ("action", JStr "down");
                  ("x", JStr "left"); ("y", JFloat 0.5)]) in
  let o := _handle_control_message st client touch e in
  raised o = Some ValueError ∧ effects o = [] ∧ state o = st
  ∧ raised (_handle_control_message st client (Parsed (JArr [])) e)
    = Some AttributeError
  ∧ (∀ later,
       let r := message_loop st client ((touch, e) :: later) in
       raised r = Some ValueError ∧ effects r = []
       ∧ state r = client_finally st client).
Proof. done. Qed.

End RouterFacts.

(** ** Facts about the chat turns *)

Module ChatFacts.
Import Chat.

Lemma init_inv : lock_inv init ∧ turns_inv init.
Proof.
  split.
  - intros t. unfold in_agent. simpl. by rewrite lookup_empty.
  - split; [constructor|]. split.
    + intros t Hin. by apply elem_of_nil in Hin.
    + intros t [x Hx]. simpl in Hx. by rewrite lookup_empty in Hx.
Qed.

(** The steps keep the invariants, whatever the number of workers. *)
Lemma step_inv (cap : nat) (s s' : state) (l : label) :
  lock_inv s → turns_inv s → step cap s l = Some s' →
  lock_inv s' ∧ turns_inv s'.
Proof.
  intros Hlock (Hnd & Hq & Hw) Hstep. destruct l as [t|t|t|t|t]; simpl in Hstep.
  - (* Submit *)
    case_bool_decide as Hk; [done|]. injection Hstep as <-.
    unfold submitted, known in Hk.
    split; [done|]. split; [|split]; simpl.
    + apply NoDup_app. split; [done|]. split; [|apply NoDup_singleton].
      intros x Hx ->%list_elem_of_singleton. naive_solver.
    + intros x [Hx|Hx%list_elem_of_singleton]%elem_of_app; [by apply Hq|].
      subst x. split; [|naive_solver].
      destruct (workers s !! t) eqn:E; [|done]. exfalso. apply Hk. eauto.
    + done.
  - (* Start *)
    destruct (queue s) as [|t' rest] eqn:Hqueue; [done|].
    case_bool_decide as Hc; [|done]. destruct Hc as [-> _].
    injection Hstep as <-.
    assert (Ht : workers s !! t = None ∧ t ∉ finished s)
      by (apply Hq; by left).
    destruct Ht as [Htw Htf]. apply NoDup_cons in Hnd as [Hnotin Hnd].
    split; [|split; [|split]]; simpl.
    + intros x. unfold in_agent. simpl.
      destruct (decide (x = t)) as [->|Hne].
      * rewrite lookup_insert_eq. split; [done|].
        intros Hl. apply Hlock in Hl. unfold in_agent in Hl. congruence.
      * rewrite lookup_insert_ne by done. apply Hlock.
    + done.
    + intros x Hx. destruct (decide (x = t)) as [->|Hne]; [done|].
      rewrite lookup_insert_ne by done. apply Hq. by right.
    + intros x. destruct (decide (x = t)) as [->|Hne]; [done|].
      rewrite lookup_insert_ne by done. apply Hw.
  - (* Acquire *)
    destruct (workers s !! t) as [[]|] eqn:Htw; [|done..].
    destruct (_chat_lock s) eqn:Hl; [done|]. injection Hstep as <-.
    split; [|split; [|split]]; simpl.
    + intros x. unfold in_agent. simpl.
      destruct (decide (x = t)) as [->|Hne].
      * by rewrite lookup_insert_eq.
      * rewrite lookup_insert_ne by done. split.
        -- intros Hx. apply Hlock in Hx. congruence.
        -- intros [= ->]. done.
    + done.
    + intros x Hx. destruct (decide (x = t)) as [->|Hne].
      * apply Hq in Hx as [? _]. congruence.
      * rewrite lookup_insert_ne by done. by apply Hq.
    + intros x. destruct (decide (x = t)) as [->|Hne].
      * intros _. apply Hw. eauto.
      * rewrite lookup_insert_ne by done. apply Hw.
  - (* Release *)
    destruct (workers s !! t) as [[]|] eqn:Htw; [done| |done].
    injection Hstep as <-.
    split; [|split; [|split]]; simpl.
    + intros x. unfold in_agent. simpl. split; [|done].
      destruct (decide (x = t)) as [->|Hne].
      * by rewrite lookup_delete_eq.
      * rewrite lookup_delete_ne by done. intros Hx.
        apply Hlock in Hx. assert (Ht : in_agent s t) by done.
        apply Hlock in Ht. congruence.
    + done.
    + intros x Hx. destruct (decide (x = t)) as [->|Hne].
      * apply Hq in Hx as [? _]. congruence.
      * rewrite lookup_delete_ne by done.
        destruct (Hq x Hx) as [? ?]. split; [done|]. set_solver.
    + intros x. destruct (decide (x = t)) as [->|Hne].
      * rewrite lookup_delete_eq. by intros [? ?].
      * rewrite lookup_delete_ne by done. intros Hx%Hw. set_solver.
  - (* Cancel *)
    case_bool_decide as Hin; [|done]. injection Hstep as <-.
    split; [done|]. split; [|split]; simpl.
    + by apply NoDup_filter.
    + intros x [_ Hx]%list_elem_of_filter. by apply Hq.
    + done.
Qed.

Lemma run_inv (cap : nat) (ls : list label) (s s' : state) :
  lock_inv s → turns_inv s → run cap s ls = Some s' →
  lock_inv s' ∧ turns_inv s'.
Proof.
  revert s. induction ls as [|l ls IH]; intros s Hl Ht Hrun; simpl in Hrun.
  - by injection Hrun as <-.
  - destruct (step cap s l) as [s1|] eqn:Hs; [|done].
    destruct (step_inv cap s s1 l Hl Ht Hs) as [Hl1 Ht1]. by apply (IH s1).
Qed.

(** Under the lock invariant two turns in the agent are one turn. *)
Lemma in_agent_unique (s : state) (t1 t2 : nat) :
  lock_inv s → in_agent s t1 → in_agent s t2 → t1 = t2.
Proof.
  intros Hl H1%Hl H2%Hl. congruence.
Qed.

(** A turn stays in the agent until it releases the lock. *)
Lemma in_agent_stays (cap : nat) (s s' : state) (l : label) (t : nat) :
  lock_inv s → turns_inv s → in_agent s t → step cap s l = Some s' →
  l ≠ Release t → in_agent s' t.
Proof.
  intros Hl (_ & Hq & _) Ht Hstep Hne. pose proof Ht as Hlk%Hl.
  unfold in_agent in *.
  destruct l as [t'|t'|t'|t'|t']; simpl in Hstep.
  - case_bool_decide; [done|]. by injection Hstep as <-.
  - destruct (queue s) as [|q rest] eqn:Hqueue; [done|].
    case_bool_decide as Hc; [|done]. injection Hstep as <-. simpl.
    destruct (decide (t = t')) as [->|?]; [|by rewrite lookup_insert_ne].
    destruct Hc as [-> _]. destruct (Hq t') as [Hnone _]; [by left|]. congruence.
  - destruct (workers s !! t') as [[]|]; [|done..].
    by rewrite Hlk in Hstep.
  - destruct (workers s !! t') as [[]|] eqn:Ht'; [done| |done].
    injection Hstep as <-. simpl.
    assert (t' = t) by (by apply (in_agent_unique s)). congruence.
  - case_bool_decide; [|done]. by injection Hstep as <-.
Qed.

(** Between a state in which one turn is in the agent and a later state in
    which another one is, the first turn released the lock. *)
Lemma release_between (cap : nat) (ls : list label) (s s' : state) (t1 t2 : nat) :
  lock_inv s → turns_inv s → run cap s ls = Some s' →
  in_agent s t1 → in_agent s' t2 → t1 ≠ t2 → Release t1 ∈ ls.
Proof.
  revert s. induction ls as [|l ls IH]; intros s Hl Ht Hrun H1 H2 Hne;
    simpl in Hrun.
  - injection Hrun as <-. by destruct Hne; apply (in_agent_unique s).
  - destruct (step cap s l) as [s1|] eqn:Hs; [|done].
    destruct (step_inv cap s s1 l Hl Ht Hs) as [Hl1 Ht1].
    assert (Hdec : l = Release t1 ∨ l ≠ Release t1).
    { destruct l as [x|x|x|x|x]; try (by right).
      destruct (decide (x = t1)) as [->|?]; [by left|right; congruence]. }
    destruct Hdec as [->|Hl']; [by left|]. right.
    apply (IH s1); try done. by apply (in_agent_stays cap s s1 l).
Qed.

(** No step but its cancellation drops a turn. *)
Lemma known_stays (cap : nat) (s s' : state) (l : label) (t : nat) :
  known s t → step cap s l = Some s' → l ≠ Cancel t → known s' t.
Proof.
  intros Hk Hstep Hl. unfold known in *.
  destruct l as [t'|t'|t'|t'|t']; simpl in Hstep.
  - case_bool_decide; [done|]. injection Hstep as <-. simpl.
    rewrite elem_of_app. naive_solver.
  - destruct (queue s) as [|q rest] eqn:Hqueue; [done|].
    case_bool_decide as Hc; [|done]. destruct Hc as [-> _].
    injection Hstep as <-. simpl.
    destruct Hk as [Hk|[Hk|Hk]]; [|right; left|by right; right].
    + apply elem_of_cons in Hk as [->|Hk]; [|by left].
      right. left. by rewrite lookup_insert_eq.
    + destruct (decide (t = t')) as [->|?];
        [by rewrite lookup_insert_eq|by rewrite lookup_insert_ne].
  - destruct (workers s !! t') as [[]|] eqn:Ht'; [|done..].
    destruct (_chat_lock s); [done|]. injection Hstep as <-. simpl.
    destruct Hk as [Hk|[Hk|Hk]]; [by left|right; left|by right; right].
    destruct (decide (t = t')) as [->|?];
      [by rewrite lookup_insert_eq|by rewrite lookup_insert_ne].
  - destruct (workers s !! t') as [[]|] eqn:Ht'; [done| |done].
    injection Hstep as <-. simpl.
    destruct Hk as [Hk|[Hk|Hk]]; [by left| |right; right; set_solver].
    destruct (decide (t = t')) as [->|?]; [right; right; set_solver|].
    right. left. by rewrite lookup_delete_ne.
  - case_bool_decide; [|done]. injection Hstep as <-. simpl.
    destruct Hk as [Hk|Hk]; [|by right]. left.
    apply list_elem_of_filter. split; [congruence|done].
Qed.

(** Only a turn that is still queued can be cancelled, and it is dropped. *)
Lemma cancel_drops (cap : nat) (s s' : state) (t : nat) :
  turns_inv s → step cap s (Cancel t) = Some s' →
  t ∈ queue s ∧ ¬ known s' t ∧ t ∈ cancelled s'.
Proof.
  intros (_ & Hq & _) Hstep. simpl in Hstep.
  case_bool_decide as Hin; [|done]. injection Hstep as <-.
  split; [done|]. destruct (Hq t Hin) as [Hw Hf].
  split; [|simpl; set_solver]. unfold known. simpl.
  intros [[? _]%list_elem_of_filter|[[x Hx]|?]]; [done|congruence|done].
Qed.

(** A step makes no turn known but the one it submits. *)
Lemma known_back (cap : nat) (s s' : state) (l : label) (t : nat) :
  step cap s l = Some s' → known s' t → known s t ∨ l = Submit t.
Proof.
  intros Hstep Hk. unfold known in *.
  destruct l as [t'|t'|t'|t'|t']; simpl in Hstep.
  - case_bool_decide; [done|]. injection Hstep as <-. simpl in Hk.
    destruct Hk as [[Hk| ->%list_elem_of_singleton]%elem_of_app|Hk]; auto.
  - destruct (queue s) as [|q rest] eqn:Hqueue; [done|].
    case_bool_decide as Hc; [|done]. destruct Hc as [-> _].
    injection Hstep as <-. simpl in Hk. left.
    destruct Hk as [Hk|[Hk|Hk]]; [left; by right| |by right; right].
    destruct (decide (t = t')) as [->|?]; [left; by left|].
    right. left. by rewrite lookup_insert_ne in Hk.
  - destruct (workers s !! t') as [[]|] eqn:Ht'; [|done..].
    destruct (_chat_lock s); [done|]. injection Hstep as <-. simpl in Hk.
    left. destruct Hk as [Hk|[Hk|Hk]]; [by left| |by right; right].
    right. left. destruct (decide (t = t')) as [->|?]; [by rewrite Ht'|].
    by rewrite lookup_insert_ne in Hk.
  - destruct (workers s !! t') as [[]|] eqn:Ht'; [done| |done].
    injection Hstep as <-. simpl in Hk. left.
    destruct Hk as [Hk|[Hk|Hk]]; [by left| |].
    + right. left. destruct (decide (t = t')) as [->|?]; [by rewrite Ht'|].
      by rewrite lookup_delete_ne in Hk.
    + apply elem_of_union in Hk as [->%elem_of_singleton|Hk];
        [right; left; by rewrite Ht'|by right; right].
  - case_bool_decide; [|done]. injection Hstep as <-. simpl in Hk. left.
    destruct Hk as [[_ Hk]%list_elem_of_filter|Hk]; [by left|by right].
Qed.

(** A cancelled turn stays dropped: it is not submitted again. *)
Lemma step_cancelled (cap : nat) (s s' : state) (l : label) :
  turns_inv s → cancelled_inv s → step cap s l = Some s' → cancelled_inv s'.
Proof.
  intros Ht Hc Hstep t Hin Hk.
  destruct (known_back cap s s' l t Hstep Hk) as [Hk0| ->].
  - destruct l as [t'|t'|t'|t'|t']; pose proof Hstep as Hstep'; simpl in Hstep.
    + case_bool_decide; [done|]. injection Hstep as <-. by apply (Hc t).
    + destruct (queue s) as [|q rest]; [done|].
      case_bool_decide; [|done]. injection Hstep as <-. by apply (Hc t).
    + destruct (workers s !! t') as [[]|]; [|done..].
      destruct (_chat_lock s); [done|]. injection Hstep as <-. by apply (Hc t).
    + destruct (workers s !! t') as [[]|]; [done| |done].
      injection Hstep as <-. by apply (Hc t).
    + destruct (cancel_drops cap s s' t' Ht Hstep') as (_ & Hdrop & _).
      case_bool_decide; [|done]. injection Hstep as <-. simpl in Hin.
      apply elem_of_union in Hin as [->%elem_of_singleton|Hin];
        [done|by apply (Hc t)].
  - simpl in Hstep. case_bool_decide as Hs; [done|]. injection Hstep as <-.
    apply Hs. by right.
Qed.

Lemma run_cancelled (cap : nat) (ls : list label) (s s' : state) :
  lock_inv s → turns_inv s → cancelled_inv s → run cap s ls = Some s' →
  cancelled_inv s'.
Proof.
  revert s. induction ls as [|l ls IH]; intros s Hl Ht Hc Hrun; simpl in Hrun.
  - by injection Hrun as <-.
  - destruct (step cap s l) as [s1|] eqn:Hs; [|done].
    destruct (step_inv cap s s1 l Hl Ht Hs) as [Hl1 Ht1].
    apply (IH s1); try done. by apply (step_cancelled cap s s1 l).
Qed.


(** The executor never runs more turns than it has workers. *)
Lemma step_workers (cap : nat) (s s' : state) (l : label) :
  (size (workers s) ≤ cap)%nat → step cap s l = Some s' →
  (size (workers s') ≤ cap)%nat.
Proof.
  intros Hsize Hstep. destruct l as [t|t|t|t|t]; simpl in Hstep.
  - case_bool_decide; [done|]. by injection Hstep as <-.
  - destruct (queue s) as [|t' rest]; [done|].
    case_bool_decide as Hc; [|done]. destruct Hc as [-> Hlt].
    injection Hstep as <-. simpl. rewrite map_size_insert.
    destruct (workers s !! t); simpl; lia.
  - destruct (workers s !! t) as [[]|] eqn:Ht; [|done..].
    destruct (_chat_lock s); [done|]. injection Hstep as <-. simpl.
    by rewrite map_size_insert_Some.
  - destruct (workers s !! t) as [[]|] eqn:Ht; [done| |done].
    injection Hstep as <-. simpl. rewrite map_size_delete, Ht. simpl. lia.
  - case_bool_decide; [|done]. by injection Hstep as <-.
Qed.

Lemma run_workers (cap : nat) (ls : list label) (s s' : state) :
  (size (workers s) ≤ cap)%nat → run cap s ls = Some s' →
  (size (workers s') ≤ cap)%nat.
Proof.
  revert s. induction ls as [|l ls IH]; intros s Hsize Hrun; simpl in Hrun.
  - by injection Hrun as <-.
  - destruct (step cap s l) as [s1|] eqn:Hs; [|done].
    apply (IH s1); [|done]. by apply (step_workers cap s s1 l).
Qed.

(** A map of at most one entry has no two keys. *)
Lemma single_entry (m : gmap nat pc) (t t' : nat) :
  (size m ≤ 1)%nat → is_Some (m !! t) → is_Some (m !! t') → t = t'.
Proof.
  intros Hsize [x Ht] [x' Ht']. destruct (decide (t = t')) as [|Hne]; [done|].
  exfalso. assert (Hd : size (delete t m) = 0%nat).
  { rewrite map_size_delete, Ht. simpl. lia. }
  apply map_size_empty_inv in Hd.
  assert (H : delete t m !! t' = Some x') by (by rewrite lookup_delete_ne).
  by rewrite Hd, lookup_empty in H.
Qed.

Lemma init_cancelled : cancelled_inv init.
Proof. intros t Hin. simpl in Hin. set_solver. Qed.

(** A cancellation is never undone. *)
Lemma run_cancelled_grows (cap : nat) (ls : list label) (s s' : state) :
  run cap s ls = Some s' → cancelled s ⊆ cancelled s'.
Proof.
  revert s. induction ls as [|l ls IH]; intros s Hrun; simpl in Hrun.
  - by injection Hrun as <-.
  - destruct (step cap s l) as [s1|] eqn:Hs; [|done].
    transitivity (cancelled s1); [|by apply IH]. clear IH Hrun.
    destruct l as [t|t|t|t|t]; simpl in Hs.
    + case_bool_decide; [done|]. by injection Hs as <-.
    + destruct (queue s) as [|q rest]; [done|].
      case_bool_decide; [|done]. by injection Hs as <-.
    + destruct (workers s !! t) as [[]|]; [|done..].
      destruct (_chat_lock s); [done|]. by injection Hs as <-.
    + destruct (workers s !! t) as [[]|]; [done| |done].
      by injection Hs as <-.
    + case_bool_decide; [|done]. injection Hs as <-. simpl. set_solver.
Qed.

(** C9, as claimed, fails.  A second chat request arrives while the first
    is in the agent: its turn is in the executor's queue, no worker has
    taken it, and it is not at the lock.  A cancel request follows, and the
    wait for the second turn times out before the first has left the
    agent: the second turn is dropped, and it never runs, whatever happens
    afterwards. *)
Lemma waiting_turn_is_dropped :
  ∃ s s',
    run max_workers init second_waiting = Some s
    ∧ in_agent s 1 ∧ queue s = [2%nat] ∧ workers s !! 2%nat = None
    ∧ step max_workers s (Start 2) = None
    ∧ run max_workers init second_dropped = Some s'
    ∧ ¬ known s' 2
    ∧ ∀ ls s'', run max_workers s' ls = Some s'' → ¬ in_agent s'' 2.
Proof.
  eexists _, _. split; [vm_compute; reflexivity|].
  split; [vm_compute; reflexivity|]. split; [vm_compute; reflexivity|].
  split; [vm_compute; reflexivity|]. split; [vm_compute; reflexivity|].
  assert (Hrun : run max_workers init second_dropped
                 = Some {| queue := []; workers := ∅; finished := {[1%nat]};
                           cancelled := {[2%nat]}; _chat_lock := None |})
    by (vm_compute; reflexivity).
  split; [exact Hrun|].
  destruct init_inv as [Hl0 Ht0].
  destruct (run_inv _ _ _ _ Hl0 Ht0 Hrun) as [Hl Ht].
  pose proof (run_cancelled _ _ _ _ Hl0 Ht0 init_cancelled Hrun) as Hc.
  split; [apply Hc; simpl; set_solver|].
  intros ls s'' Hrun' Hin.
  destruct (run_inv _ _ _ _ Hl Ht Hrun') as [Hl' Ht'].
  pose proof (run_cancelled _ _ _ _ Hl Ht Hc Hrun') as Hc'.
  apply (Hc' 2%nat).
  - apply (run_cancelled_grows _ _ _ _ Hrun'). simpl. set_solver.
  - right. left. unfold in_agent in Hin. by rewrite Hin.
Qed.

(** C9, amended.  In every state the chat turns can reach, with an
    executor of any number of workers and so with the single worker of the
    bridge: at most one turn is inside [agent.invoke], and it is the holder
    of the chat lock; while it is inside, no other turn can enter; a turn
    that is in the agent later than another one got there after the other
    released the lock.  No step drops a turn but the cancellation of that
    turn, which applies only to a turn still in the executor's queue; and a
    turn that is at the lock enters as soon as the lock is free.  With the
    single worker of the bridge, while a turn is in the agent every other
    turn that is neither finished nor dropped waits in the executor's
    queue, not at the lock. *)
Theorem chat_turns_are_serialised (cap : nat) (ls : list label) (s : state) :
  run cap init ls = Some s →
  (∀ t1 t2, in_agent s t1 → in_agent s t2 → t1 = t2)
  ∧ (∀ t, in_agent s t ↔ _chat_lock s = Some t)
  ∧ (∀ t1 t2, in_agent s t1 → step cap s (Acquire t2) = None)
  ∧ (∀ ls' s' t1 t2, run cap s ls' = Some s' →
       in_agent s t1 → in_agent s' t2 → t1 ≠ t2 → Release t1 ∈ ls')
  ∧ (∀ t l s', known s t → step cap s l = Some s' → l ≠ Cancel t →
       known s' t)
  ∧ (∀ t s', step cap s (Cancel t) = Some s' → t ∈ queue s ∧ ¬ known s' t)
  ∧ (∀ t, workers s !! t = Some AtLock → _chat_lock s = None →
       ∃ s', step cap s (Acquire t) = Some s' ∧ in_agent s' t)
  ∧ (cap = max_workers →
     ∀ t1 t2, in_agent s t1 → t2 ≠ t1 → known s t2 →
       t2 ∈ queue s ∨ t2 ∈ finished s).
Proof.
  intros Hrun.
  destruct init_inv as [Hl0 Ht0].
  destruct (run_inv cap ls init s Hl0 Ht0 Hrun) as [Hl Ht].
  split; [intros t1 t2; by apply in_agent_unique|].
  split; [done|]. split; [|split; [|split; [|split; [|split]]]].
  - intros t1 t2 Hin%Hl. simpl. rewrite Hin. by destruct (workers s !! t2) as [[]|].
  - intros ls' s' t1 t2. by apply release_between.
  - intros t l s'. by apply known_stays.
  - intros t s' Hstep.
    destruct (cancel_drops cap s s' t Ht Hstep) as (? & ? & _). done.
  - intros t Hw Hfree. simpl. rewrite Hw, Hfree. eexists. split; [done|].
    unfold in_agent. simpl. by rewrite lookup_insert_eq.
  - intros -> t1 t2 Hin Hne [Hq|[Hw|Hf]]; [by left| |by right].
    assert (Hsize : (size (workers s) ≤ 1)%nat).
    { apply (run_workers max_workers ls init s); [|done]. simpl.
      rewrite map_size_empty. lia. }
    destruct Hne. apply (single_entry (workers s)); [done..|].
    unfold in_agent in Hin. by rewrite Hin.
Qed.

(** Two requests on the bridge: the second is in the agent once the first
    has released the lock. *)
Lemma chat_turns_are_serialised_witness :
  run max_workers init two_turns = Some second_in_agent
  ∧ (in_agent second_in_agent 2 ↔ _chat_lock second_in_agent = Some 2%nat).
Proof.
  assert (Hrun : run max_workers init two_turns = Some second_in_agent)
    by (vm_compute; reflexivity).
  split; [exact Hrun|].
  exact (proj1 (proj2
    (chat_turns_are_serialised max_workers two_turns second_in_agent Hrun)) 2%nat).
Defined.

End ChatFacts.

(** ** More facts about the framer *)

Module FramerFacts.
Import Nal NalFacts.

(** The low 5 bits of an integer are a number from 0 to 31. *)
Lemma low5_range (a : Z) : 0 ≤ Z.land a 31 ≤ 31.
Proof.
  change 31 with (Z.ones 5) at 1 2. rewrite Z.land_ones by lia.
  pose proof (Z.mod_pos_bound a (2 ^ 5) ltac:(lia)). lia.
Qed.

(** The recorded length of a start position is 3 or 4. *)
Lemma scan_lengths (buf : list Z) (i : nat) :
  Forall (λ q, (q.2 = 3 ∨ q.2 = 4)%nat) (scan buf i).
Proof.
  induction i as [i IH] using (scan_ind buf).
  rewrite scan_eq. destruct (Nat.ltb_spec (i + 3) (length buf)) as [H|H]; [|done].
  specialize (IH H).
  repeat case_bool_decide.
  - constructor; [by right|]. apply IH; lia.
  - constructor; [by left|]. apply IH; lia.
  - apply IH; lia.
Qed.

(** The units the framer yields and the bytes it retains do not depend on
    how the stream was cut into reads. *)
Theorem feed_chunking_independent (chunks chunks' : list (list Z)) :
  concat chunks = concat chunks' → feed [] chunks = feed [] chunks'.
Proof. intros Heq. by rewrite !feed_extract, Heq. Qed.

Lemma feed_chunking_independent_witness :
  concat [[0; 0; 1; 103; 0]; [0; 0; 1; 104; 0; 0; 1]]
  = concat [[0; 0]; [1; 103; 0; 0; 0; 1; 104; 0; 0]; [1]]
  ∧ feed [] [[0; 0; 1; 103; 0]; [0; 0; 1; 104; 0; 0; 1]]
    = feed [] [[0; 0]; [1; 103; 0; 0; 0; 1; 104; 0; 0]; [1]].
Proof.
  assert (H : concat [[0; 0; 1; 103; 0]; [0; 0; 1; 104; 0; 0; 1]]
              = concat [[0; 0]; [1; 103; 0; 0; 0; 1; 104; 0; 0]; [1]])
    by reflexivity.
  split; [exact H|]. exact (feed_chunking_independent _ _ H).
Defined.

(** What [_extract_nal_units] retains yields nothing when extracted from
    again with no new byte, and is retained whole; when units were
    yielded, it begins with a start marker. *)
Theorem retained_buffer_is_stable (buf : list Z) :
  let kept := (_extract_nal_units buf).2 in
  _extract_nal_units kept = ([], kept)
  ∧ ((_extract_nal_units buf).1 ≠ [] →
     ∃ l, (l = 3 ∨ l = 4)%nat ∧ take l kept = marker_of l).
Proof.
  cbv zeta. split.
  - pose proof (extract_app buf []) as H. rewrite app_nil_r in H.
    destruct (_extract_nal_units buf) as [us kept]. cbn [snd].
    rewrite app_nil_r in H.
    destruct (_extract_nal_units kept) as [us' kept'].
    injection H as Hus Hkept.
    rewrite <- (app_nil_r us) in Hus at 1. apply app_inv_head in Hus.
    by subst.
  - rewrite extract_eq. cbv zeta.
    destruct (Nat.ltb_spec (length (scan buf 0)) 2) as [?|Hge]; [done|].
    intros _. cbn [snd].
    destruct (exists_last (l:=scan buf 0)) as (ps & q & Hsp).
    { intros E. rewrite E in Hge. simpl in Hge. lia. }
    pose proof (scan_marker buf 0) as Hm. pose proof (scan_lengths buf 0) as Hl.
    rewrite Hsp in *. rewrite last_last.
    apply Forall_app in Hm as [_ Hm]. apply Forall_app in Hl as [_ Hl].
    inversion Hm as [|? ? Hq _]; subst. inversion Hl as [|? ? Hql _]; subst.
    exists q.2. split; [done|]. rewrite <- Hq. unfold slice. f_equal. lia.
Qed.

(** [_get_nal_type] returns -1 or a type from 0 to 31, and a unit is of
    at most one of the three kinds the bridge caches. *)
Theorem nal_type_range (data : list Z) :
  -1 ≤ _get_nal_type data ≤ 31
  ∧ (_is_sps data && _is_pps data = false)%bool
  ∧ (_is_sps data && _is_keyframe data = false)%bool
  ∧ (_is_pps data && _is_keyframe data = false)%bool.
Proof.
  split.
  - unfold _get_nal_type.
    pose proof (low5_range (nth 4 data 0)). pose proof (low5_range (nth 3 data 0)).
    destruct (_ <? _)%nat; [lia|]. repeat case_bool_decide; lia.
  - unfold _is_sps, _is_pps, _is_keyframe.
    destruct (Z.eqb_spec (_get_nal_type data) 7) as [->|?]; [done|].
    destruct (Z.eqb_spec (_get_nal_type data) 8) as [->|?]; [done|].
    done.
Qed.

(** The loop of [_get_nal_types] ends within the fuel it is given: more
    fuel changes nothing. *)
Lemma types_loop_fuel (data : list Z) (fuel fuel' i : nat) (acc : gset Z) :
  (length data ≤ i + fuel)%nat → (length data ≤ i + fuel')%nat →
  types_loop fuel data i acc = types_loop fuel' data i acc.
Proof.
  revert fuel' i acc. induction fuel as [|fuel IH]; intros fuel' i acc H H'.
  - destruct fuel' as [|fuel']; [done|]. cbn [types_loop].
    by destruct (Nat.ltb_spec (i + 4) (length data)); [lia|].
  - destruct fuel' as [|fuel']; cbn [types_loop].
    { by destruct (Nat.ltb_spec (i + 4) (length data)); [lia|]. }
    destruct (Nat.ltb_spec (i + 4) (length data)); [|done].
    destruct (_ || _)%bool; [|apply IH; lia].
    destruct (bool_decide (slice data i (i + 3) = START3)); apply IH; lia.
Qed.

(** The loop of [_get_nal_types] only adds to the types found so far. *)
Lemma types_loop_mono (fuel : nat) (data : list Z) (i : nat) (acc : gset Z) :
  acc ⊆ types_loop fuel data i acc.
Proof.
  revert i acc. induction fuel as [|fuel IH]; intros i acc; [done|].
  cbn [types_loop]. destruct (_ <? _)%nat; [|done].
  destruct (_ || _)%bool; [|apply IH].
  etransitivity; [|apply IH]. destruct (_ <? _)%nat; set_solver.
Qed.

Lemma types_loop_range (fuel : nat) (data : list Z) (i : nat) (acc : gset Z) :
  (∀ t, t ∈ acc → 0 ≤ t ≤ 31) →
  ∀ t, t ∈ types_loop fuel data i acc → 0 ≤ t ≤ 31.
Proof.
  revert i acc. induction fuel as [|fuel IH]; intros i acc Hacc; [done|].
  cbn [types_loop]. destruct (_ <? _)%nat; [|done].
  destruct (_ || _)%bool; [|by apply IH].
  apply IH. destruct (_ <? _)%nat; [|done].
  intros t [->%elem_of_singleton|Ht]%elem_of_union; [apply low5_range|by apply Hacc].
Qed.

(** Every type [_get_nal_types] reports is a number from 0 to 31, and it
    reports none for data of fewer than 5 bytes. *)
Theorem nal_types_range (data : list Z) :
  (∀ t, t ∈ _get_nal_types data → 0 ≤ t ≤ 31)
  ∧ ((length data < 5)%nat → _get_nal_types data = ∅).
Proof.
  unfold _get_nal_types. split.
  - destruct (_ <? _)%nat; [set_solver|].
    apply types_loop_range. set_solver.
  - intros H. by destruct (Nat.ltb_spec (length data) 5); [|lia].
Qed.

(** The type [_get_nal_type] reads from a unit of at least 5 bytes that
    begins with a start marker is among the types [_get_nal_types] finds
    in it. *)
Theorem nal_type_among_types (data : list Z) (l : nat) :
  (l = 3 ∨ l = 4)%nat → take l data = marker_of l → (5 ≤ length data)%nat →
  _get_nal_type data = Z.land (nth l data 0) 31
  ∧ _get_nal_type data ∈ _get_nal_types data.
Proof.
  intros Hl Hm Hlen.
  assert (H3 : l = 3%nat → slice data 0 3 = START3 ∧ slice data 0 4 ≠ START4).
  { intros ->. unfold slice. rewrite !drop_0, !Nat.sub_0_r. split; [done|].
    intros E. unfold marker_of, START3, START4 in *.
    destruct data as [|a [|b [|c [|d r]]]]; simpl in *; congruence. }
  assert (H4 : l = 4%nat → slice data 0 3 ≠ START3 ∧ slice data 0 4 = START4).
  { intros ->. unfold slice. rewrite !drop_0, !Nat.sub_0_r. split; [|done].
    intros E. unfold marker_of, START3, START4 in *.
    destruct data as [|a [|b [|c [|d r]]]]; simpl in *; congruence. }
  assert (Ht : _get_nal_type data = Z.land (nth l data 0) 31).
  { unfold _get_nal_type.
    destruct (Nat.ltb_spec (length data) 5) as [?|_]; [lia|].
    destruct Hl as [-> | ->].
    - destruct (H3 eq_refl) as [E3 E4].
      by rewrite (bool_decide_eq_false_2 _ E4), (bool_decide_eq_true_2 _ E3).
    - destruct (H4 eq_refl) as [E3 E4].
      by rewrite (bool_decide_eq_true_2 _ E4). }
  split; [exact Ht|]. rewrite Ht. unfold _get_nal_types.
  destruct (Nat.ltb_spec (length data) 5) as [?|_]; [lia|].
  destruct (length data) as [|n] eqn:Hn; [lia|].
  cbn [types_loop]. rewrite Hn. cbn [Nat.add].
  destruct (Nat.ltb_spec 4 (S n)) as [_|?]; [|lia].
  destruct Hl as [-> | ->].
  - destruct (H3 eq_refl) as [E3 E4].
    rewrite (bool_decide_eq_true_2 _ E3). cbn [orb].
    destruct (Nat.ltb_spec 3 (S n)) as [_|?]; [|lia].
    apply types_loop_mono. set_solver.
  - destruct (H4 eq_refl) as [E3 E4].
    rewrite (bool_decide_eq_false_2 _ E3), (bool_decide_eq_true_2 _ E4).
    cbn [orb]. destruct (Nat.ltb_spec 4 (S n)) as [_|?]; [|lia].
    apply types_loop_mono. set_solver.
Qed.

Lemma nal_type_among_types_witness :
  let data := [0; 0; 1; 101; 136; 0; 0; 0; 1; 104] in
  take 3 data = marker_of 3 ∧ (5 ≤ length data)%nat
  ∧ _get_nal_type data ∈ _get_nal_types data.
Proof.
  intros data.
  assert (Hm : take 3 data = marker_of 3) by reflexivity.
  assert (Hlen : (5 ≤ length data)%nat) by (simpl; lia).
  split; [exact Hm|]. split; [exact Hlen|].
  exact (proj2 (nal_type_among_types data 3 (or_introl eq_refl) Hm Hlen)).
Defined.

End FramerFacts.

(** ** More facts about the touch gestures *)

Module TouchFacts.
Import Bridge GestureFacts.

Open Scope float_scope.

(** [_send_touch] on a valid position, for a viewer with no touch state:
    a fresh one is created, and only a pointer-down records anything. *)
Lemma send_touch_new (st : bridge) (client : nat) (action : json)
    (x y : float) (e : env) (info : DeviceInfo) :
  device_info st = Some info →
  in_unit x = true → in_unit y = true →
  _touch_states st !! client = None →
  _send_touch st client action x y e =
    let st0 := (sized st e).1 in
    let created :=
      set_touch_states st0 (<[client := fresh]> (_touch_states st0)) in
    if is_str action "down" then
      (set_touch_states created
         (<[client := {| start_pos := Some (x, y); start_time := clock e 0 |}]>
            (_touch_states created)), (sized st e).2)
    else (created, (sized st e).2).
Proof.
  intros Hinfo Hx Hy Hts. unfold _send_touch, sized, fresh.
  rewrite Hinfo, Hx, Hy. cbn [andb negb].
  destruct (_physical_width st =? 0)%Z.
  - simpl. rewrite Hts. simpl. rewrite lookup_insert_eq. simpl.
    by destruct (is_str action "down"), (is_str action "move"),
      (is_str action "up").
  - simpl. rewrite Hts. simpl. rewrite lookup_insert_eq. simpl.
    by destruct (is_str action "down"), (is_str action "move"),
      (is_str action "up").
Qed.

Lemma sized_keeps (st : bridge) (e : env) :
  clients (sized st e).1 = clients st
  ∧ device_info (sized st e).1 = device_info st
  ∧ _sps (sized st e).1 = _sps st ∧ _pps (sized st e).1 = _pps st
  ∧ _last_keyframe (sized st e).1 = _last_keyframe st
  ∧ _nal_buffer (sized st e).1 = _nal_buffer st.
Proof. unfold sized. by destruct (_ =? _)%Z. Qed.

Lemma set_touch_states_same (st : bridge) :
  set_touch_states st (_touch_states st) = st.
Proof. by destruct st. Qed.

(** The ways [_send_touch] ends. *)
Lemma send_touch_cases (st : bridge) (client : nat) (action : json)
    (x y : float) (e : env) :
  let o := _send_touch st client action x y e in
  ((device_info st = None ∨ (in_unit x && in_unit y)%bool = false)
   ∧ o.1 = st ∧ shell_commands o.2 = [])
  ∨ (∃ ts' effs,
       is_Some (device_info st) ∧ (in_unit x && in_unit y)%bool = true
       ∧ o.1 = set_touch_states (sized st e).1 ts'
       ∧ o.2 = (sized st e).2 ++ effs
       ∧ (∀ c, c ≠ client → ts' !! c = _touch_states st !! c)
       ∧ (shell_commands effs = []
          ∨ ∃ ts p cmd,
              is_str action "up" = true
              ∧ _touch_states st !! client = Some ts ∧ start_pos ts = Some p
              ∧ PrimFloat.ltb TOUCH_TIMEOUT (clock e 0 - start_time ts) = false
              ∧ shell_commands effs = [cmd] ∧ is_input cmd = true
              ∧ ts' !! client
                = Some {| start_pos := None; start_time := start_time ts |})).
Proof.
  cbv zeta. destruct (device_info st) as [info|] eqn:Hinfo;
    [|left; unfold _send_touch; rewrite Hinfo; split; [by left|done]].
  destruct (in_unit x && in_unit y)%bool eqn:Hxy;
    [|left; unfold _send_touch; rewrite Hinfo, Hxy; split; [by right|done]].
  apply andb_true_iff in Hxy as [Hx Hy]. right.
  pose proof (set_touch_states_same (sized st e).1) as Hst0.
  destruct (_touch_states st !! client) as [ts|] eqn:Hts.
  - rewrite (send_touch_known st client action x y e info ts) by done.
    cbv zeta. rewrite !touch_states_sized.
    destruct (start_pos ts) as [[sx sy]|] eqn:Hpos.
    + destruct (PrimFloat.ltb TOUCH_TIMEOUT (clock e 0 - start_time ts)) eqn:Hstale.
      { eexists _, _. split; [done|]. split; [done|]. split; [done|].
        split; [done|]. split; [|by left].
        intros c Hc. by rewrite lookup_insert_ne. }
      destruct (is_str action "down").
      { eexists _, []. rewrite app_nil_r. do 4 (split; [done|]). split; [|by left].
        intros c Hc. by rewrite lookup_insert_ne. }
      destruct (is_str action "move").
      { exists (_touch_states st), []. rewrite app_nil_r, <- touch_states_sized with (e:=e).
        rewrite Hst0. do 4 (split; [done|]). split; [|by left].
        intros c _. by rewrite touch_states_sized. }
      destruct (is_str action "up") eqn:Hup.
      * eexists _, _. do 4 (split; [done|]). split.
        { intros c Hc. by rewrite lookup_insert_ne. }
        right. exists ts, (sx, sy). eexists. do 4 (split; [done|]).
        split; [by destruct (shell_ok e)|]. split.
        { unfold gesture_command. by destruct (is_swipe _ _ _ _ _ _). }
        by rewrite lookup_insert_eq.
      * exists (_touch_states st), []. rewrite app_nil_r, <- touch_states_sized with (e:=e).
        rewrite Hst0. do 4 (split; [done|]). split; [|by left].
        intros c _. by rewrite touch_states_sized.
    + destruct (is_str action "down").
      { eexists _, []. rewrite app_nil_r. do 4 (split; [done|]). split; [|by left].
        intros c Hc. by rewrite lookup_insert_ne. }
      assert (Hsame : (if is_str action "move" then ((sized st e).1, (sized st e).2)
                       else if is_str action "up" then ((sized st e).1, (sized st e).2)
                       else ((sized st e).1, (sized st e).2))
                      = ((sized st e).1, (sized st e).2))
        by (by destruct (is_str action "move"), (is_str action "up")).
      rewrite Hsame.
      exists (_touch_states st), []. rewrite app_nil_r, <- touch_states_sized with (e:=e).
      rewrite Hst0. do 4 (split; [done|]). split; [|by left].
      intros c _. by rewrite touch_states_sized.
  - rewrite (send_touch_new st client action x y e info) by done.
    cbv zeta. rewrite !touch_states_sized.
    destruct (is_str action "down").
    + eexists _, []. rewrite app_nil_r. do 2 (split; [done|]). split.
      { simpl. reflexivity. } split; [done|]. split; [|by left].
      intros c Hc. simpl. by rewrite !lookup_insert_ne.
    + eexists _, []. rewrite app_nil_r. do 4 (split; [done|]). split; [|by left].
      intros c Hc. by rewrite lookup_insert_ne.
Qed.

Lemma shell_commands_app (effs effs' : list effect) :
  shell_commands (effs ++ effs') = shell_commands effs ++ shell_commands effs'.
Proof. unfold shell_commands. by rewrite omap_app. Qed.

Lemma shell_commands_sized (st : bridge) (e : env) :
  shell_commands (sized st e).2
  = if (_physical_width st =? 0)%Z then [WmSize] else [].
Proof. unfold sized. by destruct (_ =? _)%Z. Qed.

Lemma input_commands_single (effs : list effect) (cmd : shell_cmd) :
  shell_commands effs = [cmd] → is_input cmd = true →
  input_commands effs = [cmd].
Proof. unfold input_commands. intros -> H. simpl. by rewrite H. Qed.

Lemma input_commands_none (effs : list effect) :
  shell_commands effs = [] → input_commands effs = [].
Proof. unfold input_commands. by intros ->. Qed.

(** What [_send_touch] leaves alone: the touch states of the other
    viewers, the fan-out set, the device info, the cached units and the
    framing buffer. *)
Lemma send_touch_keeps (st : bridge) (client : nat) (action : json)
    (x y : float) (e : env) :
  let o := _send_touch st client action x y e in
  (∀ c, c ≠ client → _touch_states o.1 !! c = _touch_states st !! c)
  ∧ clients o.1 = clients st ∧ device_info o.1 = device_info st
  ∧ _sps o.1 = _sps st ∧ _pps o.1 = _pps st
  ∧ _last_keyframe o.1 = _last_keyframe st
  ∧ _nal_buffer o.1 = _nal_buffer st.
Proof.
  cbv zeta.
  destruct (send_touch_cases st client action x y e)
    as [(_ & -> & _)|(ts' & effs & _ & _ & -> & _ & Hother & _)]; [done|].
  destruct (sized_keeps st e) as (? & ? & ? & ? & ? & ?). done.
Qed.

(** An invocation of [_send_touch] sends the device at most one input
    command.  It sends one only for an "up" at a valid position that
    finds a pointer-down of the same viewer recorded and not older than
    the timeout, and that pointer-down is then no longer recorded. *)
Theorem touch_sends_at_most_one_command (st : bridge) (client : nat)
    (action : json) (x y : float) (e : env) :
  let o := _send_touch st client action x y e in
  (length (input_commands o.2) ≤ 1)%nat
  ∧ (input_commands o.2 ≠ [] →
     is_str action "up" = true
     ∧ (in_unit x && in_unit y)%bool = true
     ∧ ∃ ts p,
         _touch_states st !! client = Some ts ∧ start_pos ts = Some p
         ∧ PrimFloat.ltb TOUCH_TIMEOUT (clock e 0 - start_time ts) = false
         ∧ _touch_states o.1 !! client
           = Some {| start_pos := None; start_time := start_time ts |}).
Proof.
  cbv zeta.
  destruct (send_touch_cases st client action x y e)
    as [(_ & _ & Hnone)|(ts' & effs & _ & Hxy & Hst & -> & _ & Hcmd)].
  { rewrite (input_commands_none _ Hnone). split; [simpl; lia|done]. }
  rewrite input_commands_app, input_commands_sized. cbn [app].
  destruct Hcmd as [Hnone|(ts & p & cmd & Hup & Hts & Hpos & Hfresh & Hone & Hin & Hafter)].
  { rewrite (input_commands_none _ Hnone). split; [simpl; lia|done]. }
  rewrite (input_commands_single _ _ Hone Hin). split; [simpl; lia|].
  intros _. do 2 (split; [done|]). exists ts, p. do 3 (split; [done|]).
  by rewrite Hst.
Qed.

(** A touch event of one viewer changes no other viewer's touch state,
    and neither the set of viewers nor what is cached for new viewers. *)
Theorem touch_is_per_viewer (st : bridge) (client other : nat) (action : json)
    (x y : float) (e : env) :
  other ≠ client →
  let o := _send_touch st client action x y e in
  _touch_states o.1 !! other = _touch_states st !! other
  ∧ clients o.1 = clients st
  ∧ (_sps o.1, _pps o.1, _last_keyframe o.1) = (_sps st, _pps st, _last_keyframe st).
Proof.
  intros Hne. cbv zeta.
  destruct (send_touch_keeps st client action x y e)
    as (Hother & ? & ? & ? & ? & ? & ?).
  split; [by apply Hother|]. split; [done|]. congruence.
Qed.

Lemma touch_is_per_viewer_witness :
  let o := _send_touch two_viewers 2 (JStr "down") 0.25 0.75 (at_time 1001) in
  _touch_states o.1 !! 1%nat = _touch_states two_viewers !! 1%nat
  ∧ clients o.1 = clients two_viewers.
Proof.
  assert (Hne : 1%nat ≠ 2%nat) by lia.
  pose proof (touch_is_per_viewer two_viewers 2 1 (JStr "down") 0.25 0.75
                (at_time 1001) Hne) as H.
  cbv zeta in *. exact (conj (proj1 H) (proj1 (proj2 H))).
Defined.

(** The physical screen size is asked of the device exactly when a touch
    event at a valid position finds no size cached (width 0); the answer is
    cached, and a cached size is never changed. *)
Theorem physical_size_is_cached (st : bridge) (client : nat) (action : json)
    (x y : float) (e : env) :
  let o := _send_touch st client action x y e in
  (WmSize ∈ shell_commands o.2 ↔
     is_Some (device_info st) ∧ (in_unit x && in_unit y)%bool = true
     ∧ _physical_width st = 0%Z)
  ∧ (WmSize ∈ shell_commands o.2 →
     (_physical_width o.1, _physical_height o.1) = screen e)
  ∧ (_physical_width st ≠ 0%Z →
     (_physical_width o.1, _physical_height o.1)
     = (_physical_width st, _physical_height st)).
Proof.
  cbv zeta.
  destruct (send_touch_cases st client action x y e)
    as [(Hwhy & -> & Hnone)|(ts' & effs & Hinfo & Hxy & -> & -> & _ & Hcmd)].
  - rewrite Hnone. split; [|split; [|done]].
    + split; [by intros ?%elem_of_nil|]. intros ([info Hinfo] & Hxy & _).
      destruct Hwhy; congruence.
    + by intros ?%elem_of_nil.
  - rewrite shell_commands_app, shell_commands_sized.
    assert (Heffs : WmSize ∉ shell_commands effs).
    { destruct Hcmd as [->|(ts & p & cmd & _ & _ & _ & _ & -> & Hin & _)];
        [by intros ?%elem_of_nil|].
      intros Hin'%list_elem_of_singleton. by subst cmd. }
    cbn [fst snd]. unfold sized.
    destruct (Z.eqb_spec (_physical_width st) 0) as [Hw|Hw]; cbn [fst].
    + split; [|split; [|done]].
      * split; [done|]. intros _. apply elem_of_app. left. by left.
      * intros _. simpl. by destruct (screen e).
    + split; [|split; [|done]].
      * split; [|by intros (_ & _ & ?)].
        intros [Hin|Hin]%elem_of_app; [by apply elem_of_nil in Hin|done].
      * intros [Hin|Hin]%elem_of_app; [by apply elem_of_nil in Hin|done].
Qed.

(** A pointer-down at a valid position by a viewer with no pointer-down
    recorded, followed within the timeout by a pointer-up at a valid
    position, sends the device nothing on the down and exactly one command
    on the up: the tap or swipe from the down-position to the up-position
    that [gesture_command] decides with the platform's [** 0.5], for the
    time between the two events and the physical size the bridge has
    cached by then; no pointer-down is recorded afterwards. *)
Theorem down_then_up (st : bridge) (client : nat) (x0 y0 x y : float)
    (e0 e1 : env) (info : DeviceInfo) :
  device_info st = Some info →
  in_unit x0 = true → in_unit y0 = true → in_unit x = true → in_unit y = true →
  (∀ ts, _touch_states st !! client = Some ts → start_pos ts = None) →
  PrimFloat.ltb TOUCH_TIMEOUT (clock e1 0 - clock e0 0) = false →
  let down := _send_touch st client (JStr "down") x0 y0 e0 in
  let up := _send_touch down.1 client (JStr "up") x y e1 in
  input_commands down.2 = []
  ∧ input_commands up.2
    = [gesture_command (half_power e1) (sized down.1 e1).1 x0 y0 x y
         (clock e1 1 - clock e0 0)]
  ∧ _touch_states up.1 !! client
    = Some {| start_pos := None; start_time := clock e0 0 |}.
Proof.
  intros Hinfo Hx0 Hy0 Hx Hy Hnone Hfresh. cbv zeta.
  assert (Hdown : input_commands (_send_touch st client (JStr "down") x0 y0 e0).2 = []
    ∧ _touch_states (_send_touch st client (JStr "down") x0 y0 e0).1 !! client
      = Some {| start_pos := Some (x0, y0); start_time := clock e0 0 |}).
  { destruct (_touch_states st !! client) as [ts|] eqn:Hts.
    - rewrite (send_touch_known st client (JStr "down") x0 y0 e0 info ts) by done.
      cbv zeta. rewrite (Hnone ts eq_refl).
      change (is_str (JStr "down") "down") with true. cbn iota. cbn [fst snd].
      rewrite input_commands_sized. split; [done|]. cbn.
      by rewrite lookup_insert_eq.
    - rewrite (send_touch_new st client (JStr "down") x0 y0 e0 info) by done.
      cbv zeta. change (is_str (JStr "down") "down") with true.
      cbn iota. cbn [fst snd].
      rewrite input_commands_sized. split; [done|]. cbn.
      by rewrite lookup_insert_eq. }
  destruct Hdown as [Hcmds Hrec]. split; [done|].
  destruct (send_touch_keeps st client (JStr "down") x0 y0 e0)
    as (_ & _ & Hdi & _).
  rewrite (send_touch_known _ client (JStr "up") x y e1 info _
             ltac:(by rewrite Hdi) Hx Hy Hrec).
  cbv zeta. cbn [start_pos start_time]. rewrite Hfresh.
  rewrite is_str_up_down, is_str_up_move, is_str_up_up.
  cbn [fst snd]. rewrite input_commands_app, input_commands_sized. split.
  - cbn [app]. apply input_commands_single; [by destruct (shell_ok e1)|].
    unfold gesture_command. by destruct (is_swipe _ _ _ _ _ _).
  - cbn. by rewrite lookup_insert_eq.
Qed.

Lemma down_then_up_witness :
  let down := _send_touch sample_bridge 1 (JStr "down") 0.5 0.5 (at_time 1000) in
  PrimFloat.ltb TOUCH_TIMEOUT (1000.25 - 1000) = false
  ∧ input_commands
      (_send_touch down.1 1 (JStr "up") 0.5 0.5 (at_time 1000.25)).2
    = [gesture_command PrimFloat.sqrt (sized down.1 (at_time 1000.25)).1
         0.5 0.5 0.5 0.5 (1000.25 - 1000)].
Proof.
  assert (Hfresh : PrimFloat.ltb TOUCH_TIMEOUT
                     (clock (at_time 1000.25) 0 - clock (at_time 1000) 0) = false)
    by reflexivity.
  assert (Hnone : ∀ ts, _touch_states sample_bridge !! 1%nat = Some ts →
                        start_pos ts = None).
  { intros ts Hts. simpl in Hts. by rewrite lookup_empty in Hts. }
  split; [exact Hfresh|].
  exact (proj1 (proj2
    (down_then_up sample_bridge 1 0.5 0.5 0.5 0.5 (at_time 1000)
       (at_time 1000.25) sample_device eq_refl eq_refl eq_refl eq_refl eq_refl
       Hnone Hfresh))).
Defined.

End TouchFacts.

(** ** More facts about the control messages *)

Module ControlFacts.
Import Bridge TouchFacts.

Lemma state_raises (exn : py_exn) (st : bridge) (effs : list effect) :
  state (raises exn st effs) = st.
Proof. by destruct exn. Qed.


Lemma effects_raises (exn : py_exn) (st : bridge) (effs : list effect) :
  effects (raises exn st effs) = effs
  ∨ effects (raises exn st effs) = effs ++ [Log Warning InvalidControlMessage].
Proof. destruct exn; simpl; auto. Qed.

Lemma shell_commands_raises (exn : py_exn) (st : bridge) (effs : list effect) :
  shell_commands (effects (raises exn st effs)) = shell_commands effs.
Proof.
  destruct (effects_raises exn st effs) as [->| ->]; [done|].
  by rewrite shell_commands_app, app_nil_r.
Qed.

Lemma received_raises (c : nat) (exn : py_exn) (st : bridge)
    (effs : list effect) :
  received c (effects (raises exn st effs)) = received c effs.
Proof.
  destruct (effects_raises exn st effs) as [->| ->]; [done|].
  by rewrite HubFacts.received_app, app_nil_r.
Qed.


Lemma slice_50_escapes (v : json) (exn : py_exn) :
  slice_50 v = Some exn → exn = TypeError.
Proof. destruct v; simpl; congruence. Qed.


Lemma raises_caught (exn : py_exn) (st : bridge) (effs : list effect) :
  raised (raises exn st effs) ≠ Some JSONDecodeError
  ∧ raised (raises exn st effs) ≠ Some KeyError.
Proof. by destruct exn. Qed.

Lemma same_but_chat_refl (st : bridge) : same_but_chat st st.
Proof. by destruct st. Qed.

Lemma same_but_chat_fields (st st' : bridge) :
  same_but_chat st st' →
  _touch_states st' = _touch_states st
  ∧ clients st' = clients st ∧ device_info st' = device_info st
  ∧ _sps st' = _sps st ∧ _pps st' = _pps st
  ∧ _last_keyframe st' = _last_keyframe st
  ∧ _nal_buffer st' = _nal_buffer st
  ∧ (_physical_width st', _physical_height st')
    = (_physical_width st, _physical_height st).
Proof. unfold same_but_chat. by intros <-. Qed.

(** [_get_agent] changes the agent handle at most, sends nothing, and has
    the agent set when it returns. *)
Lemma get_agent_cases (st : bridge) (e : env) (c : nat) :
  let g := _get_agent st e in
  set_agent (state g) (_agent st) = st
  ∧ shell_commands (effects g) = [] ∧ received c (effects g) = []
  ∧ (raised g = None → _agent (state g) = true).
Proof.
  cbv zeta. unfold _get_agent. destruct (_agent st) eqn:Ha.
  - simpl. split; [|done]. destruct st; simpl in *. by subst.
  - destruct (agent_init e); simpl; (split; [|done]);
      destruct st; simpl in *; by subst.
Qed.

(** A type is one string: a "cancel" or "new_session" message is of none
    of the types tested before. *)
Lemma is_str_one (j : json) (s s' : string) :
  is_str j s = true → s ≠ s' → is_str j s' = false.
Proof.
  destruct j; try done. simpl. intros ->%bool_decide_eq_true Hne.
  by apply bool_decide_eq_false.
Qed.

(** The handler of a message that is not a touch message, by its type. *)
Lemma non_touch_cases (st : bridge) (client : nat) (e : env)
    (members : list (string * json)) :
  let ty := default JNull (dict_get "type" members) in
  is_str ty "touch" = false →
  let o := _handle_control_message st client (Parsed (JObj members)) e in
  same_but_chat st (state o)
  ∧ (is_str ty "cancel" = false → is_str ty "new_session" = false →
     state o = st
     ∧ (raised o = None ∨ raised o = Some TypeError))
  ∧ (is_str ty "cancel" = true → _chat_cancelled (state o) = true)
  ∧ raised o ≠ Some JSONDecodeError ∧ raised o ≠ Some KeyError
  ∧ (is_Some (raised o) →
     shell_commands (effects o) = [] ∧ received client (effects o) = [])
  ∧ (shell_commands (effects o) = []
     ∨ ∃ keycode, shell_commands (effects o) = [InputKeyevent keycode]).
Proof.
  intros ty Hty. cbv zeta. unfold _handle_control_message. fold ty.
  rewrite Hty. pose proof (same_but_chat_refl st) as Hrefl.
  assert (Hplain : ∀ s, s ≠ "cancel" → is_str ty s = true →
                        is_str ty "cancel" = true → False).
  { intros s Hs H1 H2. rewrite (is_str_one ty "cancel" s H2) in H1; [done|].
    congruence. }
  destruct (is_str ty "key") eqn:Hkey.
  { destruct (dict_get "keycode" members), (dict_get "action" members);
      unfold _send_key; destruct (shell_ok e); simpl;
      (split; [done|]); (split; [auto|]);
      (split; [intros H; by destruct (Hplain "key" ltac:(done) Hkey H)|]);
      do 2 (split; [done|]); (split; [by intros [? ?]|]); eauto. }
  destruct (is_str ty "back") eqn:Hback.
  { unfold _send_key; destruct (shell_ok e); simpl;
      (split; [done|]); (split; [auto|]);
      (split; [intros H; by destruct (Hplain "back" ltac:(done) Hback H)|]);
      do 2 (split; [done|]); (split; [by intros [? ?]|]); eauto. }
  destruct (is_str ty "home") eqn:Hhome.
  { unfold _send_key; destruct (shell_ok e); simpl;
      (split; [done|]); (split; [auto|]);
      (split; [intros H; by destruct (Hplain "home" ltac:(done) Hhome H)|]);
      do 2 (split; [done|]); (split; [by intros [? ?]|]); eauto. }
  destruct (is_str ty "recents") eqn:Hrec.
  { unfold _send_key; destruct (shell_ok e); simpl;
      (split; [done|]); (split; [auto|]);
      (split; [intros H; by destruct (Hplain "recents" ltac:(done) Hrec H)|]);
      do 2 (split; [done|]); (split; [by intros [? ?]|]); eauto. }
  destruct (is_str ty "chat") eqn:Hchat.
  { destruct (slice_50 _) as [exn|] eqn:Hs;
      [apply slice_50_escapes in Hs as ->|]; simpl;
      (split; [done|]); (split; [auto|]);
      (split; [intros H; by destruct (Hplain "chat" ltac:(done) Hchat H)|]);
      do 2 (split; [done|]);
      (split; [intros [? ?]; by simplify_eq|]); eauto. }
  destruct (is_str ty "cancel") eqn:Hcancel.
  { cbv zeta.
    destruct (get_agent_cases (set_chat_cancelled st true) e client)
      as (Hg & Hsh & Hrecv & _).
    assert (Hsame : same_but_chat st (state (_get_agent (set_chat_cancelled st true) e))).
    { unfold same_but_chat. cbn [_agent set_chat_cancelled] in Hg.
      rewrite Hg. by destruct st. }
    assert (Hflag : _chat_cancelled (state (_get_agent (set_chat_cancelled st true) e))
                    = true).
    { by apply (f_equal _chat_cancelled) in Hg. }
    destruct (raised (_get_agent (set_chat_cancelled st true) e)) as [exn|].
    - rewrite state_raises, shell_commands_raises, received_raises.
      rewrite !shell_commands_app, !HubFacts.received_app, Hsh, Hrecv.
      destruct (raises_caught exn
                  (state (_get_agent (set_chat_cancelled st true) e))
                  ([Log Info ReceivedControlMessage]
                   ++ [Log Info CancelRequested; SetChatCancelled]
                   ++ effects (_get_agent (set_chat_cancelled st true) e))).
      rewrite <- !app_assoc in *. by repeat split; auto.
    - destruct (interrupt_sync e) as [exn|].
      + rewrite state_raises, shell_commands_raises, received_raises.
        rewrite !shell_commands_app, !HubFacts.received_app, Hsh, Hrecv.
        destruct (raises_caught exn
                    (state (_get_agent (set_chat_cancelled st true) e))
                    (([Log Info ReceivedControlMessage]
                      ++ [Log Info CancelRequested; SetChatCancelled])
                     ++ effects (_get_agent (set_chat_cancelled st true) e)
                     ++ [AgentInterrupt])).
        by repeat split; auto.
      + cbn [state raised effects returns].
        rewrite !shell_commands_app, !HubFacts.received_app, Hsh, Hrecv.
        repeat split; auto; try done; by intros [? ?]. }
  destruct (is_str ty "new_session") eqn:Hnew.
  { cbv zeta.
    destruct (get_agent_cases st e client) as (Hg & Hsh & Hrecv & _).
    assert (Hsame : same_but_chat st (state (_get_agent st e))).
    { unfold same_but_chat. rewrite Hg. by destruct st. }
    destruct (raised (_get_agent st e)) as [exn|].
    - rewrite state_raises, shell_commands_raises, received_raises.
      rewrite !shell_commands_app, !HubFacts.received_app, Hsh, Hrecv.
      destruct (raises_caught exn (state (_get_agent st e))
                  (([Log Info ReceivedControlMessage]
                    ++ [Log Info NewSessionRequested])
                   ++ effects (_get_agent st e))).
      by repeat split; auto.
    - destruct (clear_session e) as [exn|].
      + rewrite state_raises, shell_commands_raises, received_raises.
        rewrite !shell_commands_app, !HubFacts.received_app, Hsh, Hrecv.
        destruct (raises_caught exn (state (_get_agent st e))
                    (([Log Info ReceivedControlMessage]
                      ++ [Log Info NewSessionRequested])
                     ++ effects (_get_agent st e) ++ [AgentClearSession])).
        by repeat split; auto.
      + destruct (client_send e) as [exn|].
        * rewrite state_raises, shell_commands_raises, received_raises.
          rewrite !shell_commands_app, !HubFacts.received_app, Hsh, Hrecv.
          destruct (raises_caught exn (state (_get_agent st e))
                      (([Log Info ReceivedControlMessage]
                        ++ [Log Info NewSessionRequested])
                       ++ effects (_get_agent st e) ++ [AgentClearSession])).
          by repeat split; auto.
        * cbn [state raised effects returns].
          rewrite !shell_commands_app, Hsh.
          repeat split; auto; try done; by intros [? ?]. }
  simpl. repeat split; auto; try done; by intros [? ?].
Qed.

(** What [_handle_control_message] leaves alone: the touch states of the
    other viewers, the fan-out set, the device info, the cached units and
    the framing buffer. *)
Lemma control_message_keeps (st : bridge) (client : nat)
    (message : loads_result) (e : env) :
  let o := _handle_control_message st client message e in
  (∀ c, c ≠ client → _touch_states (state o) !! c = _touch_states st !! c)
  ∧ clients (state o) = clients st ∧ device_info (state o) = device_info st
  ∧ _sps (state o) = _sps st ∧ _pps (state o) = _pps st
  ∧ _last_keyframe (state o) = _last_keyframe st
  ∧ _nal_buffer (state o) = _nal_buffer st.
Proof.
  cbv zeta. destruct message as [|exn|data]; [done| |].
  { simpl. by rewrite state_raises. }
  destruct data as [| | | | | |members]; try done.
  destruct (is_str (default JNull (dict_get "type" members)) "touch") eqn:Hty.
  - unfold _handle_control_message. rewrite Hty.
    destruct (touch_fields members) as [exn|[[action jx] jy]];
      [by rewrite state_raises|].
    pose proof (send_touch_keeps st client action (number jx) (number jy) e) as H.
    cbv zeta in H. by destruct (_send_touch _ _ _ _ _ _).
  - destruct (non_touch_cases st client e members Hty) as [Hsame _].
    apply same_but_chat_fields in Hsame as (-> & -> & -> & -> & -> & -> & -> & _).
    done.
Qed.






(** However the message loop of a viewer ends, with the connection closed
    or with an exception leaving the handler, the viewer is afterwards in
    neither the fan-out set nor the touch states, and the other viewers are
    where they were: in or out of the fan-out set, with their touch states;
    the cached units are untouched. *)
Theorem message_loop_cleans_up (st : bridge) (client : nat)
    (messages : list (loads_result * env)) :
  let o := message_loop st client messages in
  (client ∉ clients (state o))
  ∧ _touch_states (state o) !! client = None
  ∧ (∀ c, c ≠ client →
       (c ∈ clients (state o) ↔ c ∈ clients st)
       ∧ _touch_states (state o) !! c = _touch_states st !! c)
  ∧ (_sps (state o), _pps (state o), _last_keyframe (state o))
    = (_sps st, _pps st, _last_keyframe st).
Proof.
  cbv zeta.
  assert (Hfin : ∀ s,
    (client ∉ clients (client_finally s client))
    ∧ _touch_states (client_finally s client) !! client = None
    ∧ (∀ c, c ≠ client →
         (c ∈ clients (client_finally s client) ↔ c ∈ clients s)
         ∧ _touch_states (client_finally s client) !! c = _touch_states s !! c)
    ∧ (_sps (client_finally s client), _pps (client_finally s client),
       _last_keyframe (client_finally s client))
      = (_sps s, _pps s, _last_keyframe s)).
  { intros s. unfold client_finally. cbn. split; [set_solver|].
    split; [by rewrite lookup_delete_eq|]. split; [|done].
    intros c Hc. split; [set_solver|]. by rewrite lookup_delete_ne. }
  revert st. induction messages as [|[message e] rest IH]; intros st.
  { apply Hfin. }
  cbn [message_loop].
  destruct (control_message_keeps st client message e)
    as (Hts & Hcl & _ & Hs & Hp & Hk & _).
  destruct (raised (_handle_control_message st client message e)) as [exn|].
  - destruct (Hfin (state (_handle_control_message st client message e)))
      as (H1 & H2 & H3 & H4).
    assert (Hend : ∀ effs effs',
      state (match exn with
             | ConnectionClosed =>
                 returns (client_finally
                            (state (_handle_control_message st client message e))
                            client) effs
             | _ =>
                 {| state := client_finally
                               (state (_handle_control_message st client message e))
                               client;
                    effects := effs'; raised := Some exn |}
             end)
      = client_finally (state (_handle_control_message st client message e))
                       client) by (intros; by destruct exn).
    rewrite Hend.
    split; [done|]. split; [done|]. split; [|congruence].
    intros c Hc. destruct (H3 c Hc) as [Hin Hlk].
    rewrite Hin, Hlk, Hcl. split; [done|]. by apply Hts.
  - cbn [state].
    destruct (IH (state (_handle_control_message st client message e)))
      as (H1 & H2 & H3 & H4).
    split; [done|]. split; [done|]. split; [|congruence].
    intros c Hc. destruct (H3 c Hc) as [Hin Hlk].
    rewrite Hin, Hlk, Hcl. split; [done|]. by apply Hts.
Qed.

End ControlFacts.

(** ** More facts about the video loop and the fan-out *)

Module StreamFacts.
Import Bridge HubFacts.

Lemma process_unit_cache_ok (st : bridge) (u : list Z) (fails : nat → bool) :
  cache_ok st → cache_ok (process_nal_unit st u fails).1.
Proof.
  intros (Hs & Hp & Hk). unfold process_nal_unit, cache_ok. cbn.
  split; [|split].
  - intros s. destruct (Nal._is_sps u) eqn:E; [by intros [= <-]|apply Hs].
  - intros p. destruct (Nal._is_pps u) eqn:E; [by intros [= <-]|apply Hp].
  - intros k. destruct (Nal._is_keyframe u) eqn:E; [by intros [= <-]|apply Hk].
Qed.

Lemma step_cache_ok (st : bridge) (ev : event) :
  cache_ok st → cache_ok (step st ev).1.
Proof.
  destruct ev; try done. apply process_unit_cache_ok.
Qed.

Lemma run_cache_ok (st : bridge) (evs : list event) :
  cache_ok st → cache_ok (run st evs).1.
Proof.
  revert st. induction evs as [|ev evs IH]; intros st Hok; [done|].
  cbn [run]. pose proof (step_cache_ok st ev Hok) as H1.
  destruct (step st ev) as [st1 effs1]. specialize (IH st1 H1).
  by destruct (run st1 evs).
Qed.

Lemma process_units_cache_ok (units : list (list Z)) (st : bridge) (n : nat)
    (fails : nat → nat → bool) :
  cache_ok st → cache_ok (process_nal_units st units n fails).1.
Proof.
  revert st n. induction units as [|u units IH]; intros st n Hok; [done|].
  cbn [process_nal_units].
  pose proof (process_unit_cache_ok st u (fails (S n)) Hok) as H1.
  destruct (process_nal_unit st u (fails (S n))) as [st1 effs1].
  specialize (IH st1 (S n) H1). by destruct (process_nal_units st1 units (S n) fails).
Qed.

(** What the processing of units leaves alone. *)
Lemma process_units_keeps (units : list (list Z)) (st : bridge) (n : nat)
    (fails : nat → nat → bool) :
  let st' := (process_nal_units st units n fails).1 in
  clients st' = clients st ∧ _nal_buffer st' = _nal_buffer st
  ∧ _touch_states st' = _touch_states st ∧ device_info st' = device_info st.
Proof.
  revert st n. induction units as [|u units IH]; intros st n; [done|].
  cbn [process_nal_units].
  destruct (process_nal_unit st u (fails (S n))) as [st1 effs1] eqn:E1.
  assert (H1 : clients st1 = clients st ∧ _nal_buffer st1 = _nal_buffer st
               ∧ _touch_states st1 = _touch_states st
               ∧ device_info st1 = device_info st).
  { unfold process_nal_unit in E1. by injection E1 as <- _. }
  specialize (IH st1 (S n)). cbv zeta in IH.
  destruct (process_nal_units st1 units (S n) fails). cbn [fst] in *.
  destruct IH as (-> & -> & -> & ->). done.
Qed.

(** A viewer of the fan-out set receives each unit of a batch once, in
    order, when no send to it raises. *)
Lemma received_batch (units : list (list Z)) (st : bridge) (n : nat)
    (fails : nat → nat → bool) (c : nat) :
  c ∈ clients st → (∀ k, fails k c = false) →
  received c (process_nal_units st units n fails).2 = map MsgBinary units.
Proof.
  revert st n. induction units as [|u units IH]; intros st n Hin Hok; [done|].
  cbn [process_nal_units].
  pose proof (received_unit st u (fails (S n)) c) as Hu.
  pose proof (process_unit_keeps st u (fails (S n))) as (Hcl & _).
  destruct (process_nal_unit st u (fails (S n))) as [st1 effs1].
  cbn [fst snd] in *.
  specialize (IH st1 (S n) ltac:(by rewrite Hcl) Hok).
  destruct (process_nal_units st1 units (S n) fails) as [st2 effs2].
  cbn [fst snd] in *. rewrite received_app, Hu, IH.
  by rewrite bool_decide_eq_true_2.
Qed.

Lemma last_cons_default (v u : list Z) (vs : list (list Z)) :
  List.last (v :: vs) u = List.last vs v.
Proof.
  revert v u. induction vs as [|w vs IH]; intros v u; [done|].
  transitivity (List.last (w :: vs) u); [done|].
  by rewrite (IH w u), (IH w v).
Qed.

Lemma latest_cons (kind : list Z → bool) (cached : option (list Z))
    (u : list Z) (units : list (list Z)) :
  latest kind cached (u :: units)
  = latest kind (if kind u then Some u else cached) units.
Proof.
  unfold latest. cbn [List.filter]. destruct (kind u); [|done].
  destruct (List.filter kind units) as [|v vs]; [done|].
  by rewrite last_cons_default.
Qed.

(** The cached units are of their kinds at every moment: if the SPS, PPS
    and keyframe the bridge holds are an SPS, a PPS and a keyframe, they
    still are after any interleaving of connections, disconnections and
    processed units, and after any run of the video loop. *)
Theorem cache_holds_units_of_its_kinds (st : bridge) (evs : list event)
    (reads : list read) (n : nat) (fails : nat → nat → bool) :
  cache_ok st →
  cache_ok (run st evs).1 ∧ cache_ok (final (_video_stream_loop st reads n fails)).
Proof.
  intros Hok. split; [by apply run_cache_ok|].
  revert st n Hok. induction reads as [|r reads IH]; intros st n Hok; [done|].
  destruct r as [|[|b data]]; cbn [_video_stream_loop]; [by apply IH|done|].
  destruct (Nal.ingest (_nal_buffer st) (b :: data)) as [units buf].
  pose proof (process_units_cache_ok units (set_nal_buffer st buf) n fails) as H1.
  destruct (process_nal_units (set_nal_buffer st buf) units n fails) as [st1 effs1].
  cbn [final]. apply IH. by apply H1.
Qed.

Lemma cache_holds_units_of_its_kinds_witness :
  cache_ok sample_bridge
  ∧ cache_ok (run sample_bridge
                [Unit sps_unit no_failure; Connect 1; Unit delta_unit no_failure]).1.
Proof.
  assert (Hok : cache_ok sample_bridge) by (by repeat split).
  split; [exact Hok|].
  exact (proj1 (cache_holds_units_of_its_kinds sample_bridge
                  [Unit sps_unit no_failure; Connect 1; Unit delta_unit no_failure]
                  [] 0 (λ _ _, false) Hok)).
Defined.

(** After a batch of units the bridge holds, of each kind, the last unit
    of that kind in the batch, and what it held before when the batch has
    none. *)
Theorem cache_keeps_the_latest (units : list (list Z)) (st : bridge) (n : nat)
    (fails : nat → nat → bool) :
  let st' := (process_nal_units st units n fails).1 in
  _sps st' = latest Nal._is_sps (_sps st) units
  ∧ _pps st' = latest Nal._is_pps (_pps st) units
  ∧ _last_keyframe st' = latest Nal._is_keyframe (_last_keyframe st) units.
Proof.
  revert st n. induction units as [|u units IH]; intros st n; [done|].
  cbv zeta. cbn [process_nal_units]. rewrite !latest_cons.
  specialize (IH (process_nal_unit st u (fails (S n))).1 (S n)).
  cbv zeta in IH.
  destruct (process_nal_unit st u (fails (S n))) as [st1 effs1] eqn:E1.
  assert (H1 : _sps st1 = (if Nal._is_sps u then Some u else _sps st)
               ∧ _pps st1 = (if Nal._is_pps u then Some u else _pps st)
               ∧ _last_keyframe st1
                 = (if Nal._is_keyframe u then Some u else _last_keyframe st)).
  { unfold process_nal_unit in E1. by injection E1 as <- _. }
  destruct H1 as (<- & <- & <-). cbn [fst] in IH.
  by destruct (process_nal_units st1 units (S n) fails).
Qed.

(** Where no step of the handler of viewer [c] occurs, a viewer outside
    the fan-out set stays outside and is sent nothing. *)
Lemma outsider_receives_nothing (evs : list event) (st : bridge) (c : nat) :
  c ∉ clients st → Forall (λ ev, handler_step c ev = false) evs →
  received c (run st evs).2 = [] ∧ c ∉ clients (run st evs).1.
Proof.
  revert st. induction evs as [|ev evs IH]; intros st Hout Hevs; [done|].
  inversion Hevs as [|? ? Hev Hevs']; subst. cbn [run].
  assert (H1 : received c (step st ev).2 = [] ∧ c ∉ clients (step st ev).1).
  { destruct ev as [c'|c'|c'|c'|c'|u fails|c']; cbn [handler_step] in Hev;
      try apply bool_decide_eq_false in Hev; cbn [step fst snd].
    - split; [done|]. cbn. set_solver.
    - split; [|done]. unfold send_device_info.
      destruct (device_info st); [|done]. cbn. by rewrite bool_decide_eq_false_2.
    - split; [|done]. unfold send_cached.
      destruct (_sps st) as [[|? ?]|]; try done. cbn.
      by rewrite bool_decide_eq_false_2.
    - split; [|done]. unfold send_cached.
      destruct (_pps st) as [[|? ?]|]; try done. cbn.
      by rewrite bool_decide_eq_false_2.
    - split; [|done]. unfold send_cached.
      destruct (_last_keyframe st) as [[|? ?]|]; try done. cbn.
      by rewrite bool_decide_eq_false_2.
    - split; [|done]. rewrite received_unit.
      rewrite bool_decide_eq_false_2; [done|]. by intros [? _].
    - split; [done|]. cbn. set_solver. }
  destruct (step st ev) as [st1 effs1]. cbn [fst snd] in H1.
  destruct H1 as [Hr1 Hout1]. specialize (IH st1 Hout1 Hevs').
  destruct (run st1 evs) as [st2 effs2]. cbn [fst snd] in *.
  by rewrite received_app, Hr1.
Qed.

(** Once the handler of a viewer has run its [finally], the viewer is
    sent nothing, whatever units are processed and whatever the other
    viewers do, until it connects again. *)
Theorem closed_viewer_receives_nothing (st : bridge) (c : nat)
    (evs : list event) :
  Forall (λ ev, handler_step c ev = false) evs →
  received c (run st (Closed c :: evs)).2 = []
  ∧ c ∉ clients (run st (Closed c :: evs)).1.
Proof.
  intros Hevs. cbn [run step].
  assert (Hout : c ∉ clients (client_finally st c)) by (cbn; set_solver).
  destruct (outsider_receives_nothing evs (client_finally st c) c Hout Hevs)
    as [Hr Hc].
  by destruct (run (client_finally st c) evs).
Qed.

Lemma closed_viewer_receives_nothing_witness :
  received 1 (run two_viewers
                [Closed 1; Unit idr_unit no_failure; SendSps 2;
                 Unit delta_unit no_failure]).2 = [].
Proof.
  assert (Hevs : Forall (λ ev, handler_step 1 ev = false)
                   [Unit idr_unit no_failure; SendSps 2;
                    Unit delta_unit no_failure])
    by (repeat constructor).
  exact (proj1 (closed_viewer_receives_nothing two_viewers 1 _ Hevs)).
Defined.

(** A viewer that is in the fan-out set during a run of the video loop
    with no empty read, and to which no send raises, receives exactly the
    units the framer yields for the bytes read, each once and in order,
    whatever the reads that returned nothing; the bytes after the last
    start marker located stay in the framing buffer.  With an empty buffer
    at the start, these are the units of the whole byte sequence, however
    it was cut into reads. *)
Theorem video_loop_delivers_units (reads : list read) (st : bridge) (n : nat)
    (fails : nat → nat → bool) (c : nat) :
  c ∈ clients st → (∀ k, fails k c = false) → Data [] ∉ reads →
  let r := _video_stream_loop st reads n fails in
  let fed := Nal.feed (_nal_buffer st) (read_bytes reads) in
  received c (sent r) = map MsgBinary fed.1
  ∧ _nal_buffer (final r) = fed.2
  ∧ disconnected r = false
  ∧ (_nal_buffer st = [] →
     fed = Nal._extract_nal_units (concat (read_bytes reads))).
Proof.
  intros Hin Hok Hreads. cbv zeta.
  enough (H : received c (sent (_video_stream_loop st reads n fails))
              = map MsgBinary (Nal.feed (_nal_buffer st) (read_bytes reads)).1
              ∧ _nal_buffer (final (_video_stream_loop st reads n fails))
                = (Nal.feed (_nal_buffer st) (read_bytes reads)).2
              ∧ disconnected (_video_stream_loop st reads n fails) = false).
  { destruct H as (H1 & H2 & H3). do 3 (split; [done|]).
    intros ->. apply NalFacts.feed_extract. }
  revert st n Hin Hreads; induction reads as [|r reads IH];
    intros st n Hin Hreads; [done|].
  apply not_elem_of_cons in Hreads as [Hr Hreads].
  destruct r as [|[|b data]]; [by apply IH|done|].
  change (read_bytes (Data (b :: data) :: reads))
    with ((b :: data) :: read_bytes reads).
  cbn [_video_stream_loop Nal.feed].
  destruct (Nal.ingest (_nal_buffer st) (b :: data)) as [units buf].
  pose proof (received_batch units (set_nal_buffer st buf) n fails c Hin Hok)
    as Hrec.
  pose proof (process_units_keeps units (set_nal_buffer st buf) n fails)
    as (Hcl & Hbuf & _).
  destruct (process_nal_units (set_nal_buffer st buf) units n fails)
    as [st1 effs1]; cbn [fst snd] in *.
  specialize (IH st1 (n + length units)%nat ltac:(by rewrite Hcl) Hreads).
  rewrite Hbuf in IH; cbn [_nal_buffer set_nal_buffer] in IH.
  destruct (Nal.feed buf (read_bytes reads)) as [us' buf'']; cbn [fst snd] in *.
  destruct IH as (IH1 & IH2 & IH3). cbn [sent final disconnected].
  by rewrite received_app, Hrec, IH1, map_app.
Qed.

Lemma video_loop_delivers_units_witness :
  let reads := [Data [0; 0; 0; 1; 103; 66]; NoData; Data [192; 41; 0; 0];
                Data [0; 1; 104; 206; 60; 128; 0; 0; 0; 1; 101]] in
  let r := _video_stream_loop (run sample_bridge [Connect 1]).1 reads 0
             (λ _ _, false) in
  received 1 (sent r) = [MsgBinary sps_unit; MsgBinary pps_unit]
  ∧ _nal_buffer (final r) = [0; 0; 0; 1; 101].
Proof.
  intros reads r.
  assert (Hin : 1%nat ∈ clients (run sample_bridge [Connect 1]).1)
    by (cbn; set_solver).
  assert (Hreads : Data [] ∉ reads).
  { unfold reads. rewrite !not_elem_of_cons. repeat split; try done.
    by intros ?%elem_of_nil. }
  pose proof (video_loop_delivers_units reads _ 0 (λ _ _, false) 1 Hin
                (λ _, eq_refl) Hreads) as (H1 & H2 & _).
  split; [exact H1|exact H2].
Defined.

(** An empty read ends the video loop: the reads that would follow are
    not made, and nothing more is sent; in particular the bytes that are
    in the framing buffer then, the last unit of the stream, are never
    sent to any viewer. *)
Theorem empty_read_ends_the_loop (reads later : list read) (st : bridge)
    (n : nat) (fails : nat → nat → bool) :
  let r := _video_stream_loop st (reads ++ Data [] :: later) n fails in
  let r0 := _video_stream_loop st reads n fails in
  final r = final r0 ∧ sent r = sent r0 ∧ disconnected r = true.
Proof.
  cbv zeta. revert st n. induction reads as [|r reads IH]; intros st n; [done|].
  destruct r as [|[|b data]]; [apply IH|done|].
  change ((Data (b :: data) :: reads) ++ Data [] :: later)
    with (Data (b :: data) :: (reads ++ Data [] :: later)).
  cbn [_video_stream_loop].
  destruct (Nal.ingest (_nal_buffer st) (b :: data)) as [units buf].
  destruct (process_nal_units (set_nal_buffer st buf) units n fails)
    as [st1 effs1].
  destruct (IH st1 (n + length units)%nat) as (-> & -> & ->). done.
Qed.

End StreamFacts.

(** ** More facts about the chat turns *)

Module ExecutorFacts.
Import Chat ChatFacts.

Lemma submitted_stays (cap : nat) (s s' : state) (l : label) (t : nat) :
  submitted s t → step cap s l = Some s' → submitted s' t.
Proof.
  intros [Hk|Hc] Hstep.
  - assert (Hdec : l = Cancel t ∨ l ≠ Cancel t).
    { destruct l as [x|x|x|x|x]; try (by right).
      destruct (decide (x = t)) as [->|?]; [by left|right; congruence]. }
    destruct Hdec as [->|Hne]; [|left; by apply (known_stays cap s s' l)].
    simpl in Hstep. case_bool_decide; [|done]. injection Hstep as <-.
    right. simpl. set_solver.
  - right. apply (run_cancelled_grows cap [l] s s'); [|done].
    simpl. by rewrite Hstep.
Qed.

Lemma filter_other (t : nat) (l : list nat) :
  t ∉ l → filter (λ x, x ≠ t) l = l.
Proof.
  induction l as [|x l IH]; [done|]. intros [Hx Hl]%not_elem_of_cons.
  rewrite filter_cons. destruct (decide (x ≠ t)) as [_|Hc].
  - by rewrite IH.
  - destruct Hc. congruence.
Qed.

Lemma step_order (pre : list label) (s s' : state) (l : label) :
  order_inv pre s → step max_workers s l = Some s' →
  order_inv (pre ++ [l]) s'.
Proof.
  intros (Hnd & Hsub & Hcan & Hq & waiting & Hst & Hlen & Hw) Hstep.
  assert (Hsub' : ∀ t, t ∈ submits pre → submitted s' t).
  { intros t Ht. apply (submitted_stays max_workers s s' l); auto. }
  assert (Hcan' : ∀ t, t ∈ cancels pre → t ∈ cancelled s').
  { intros t Ht. apply (run_cancelled_grows max_workers [l] s s'); auto.
    simpl. by rewrite Hstep. }
  unfold order_inv, kept in *.
  unfold starts, submits, acquires, cancels in *. rewrite !omap_app.
  destruct l as [t|t|t|t|t]; simpl in Hstep; simpl; rewrite ?app_nil_r.
  - case_bool_decide as Hs; [done|]. injection Hstep as <-. simpl.
    assert (Hnew : t ∉ omap (λ l, if l is Submit t then Some t else None) pre).
    { intros Hin. apply Hs. by apply Hsub. }
    split.
    { apply NoDup_app. split; [done|]. split; [|apply NoDup_singleton].
      intros x Hx ->%list_elem_of_singleton. done. }
    split.
    { intros x [Hx| ->%list_elem_of_singleton]%elem_of_app; [by apply Hsub'|].
      left. left. simpl. apply elem_of_app. right. by left. }
    split; [done|]. split; [|by exists waiting].
    rewrite filter_app, app_assoc, Hq. f_equal.
    rewrite filter_cons.
    destruct (decide (t ∉ omap (λ l, if l is Cancel t then Some t else None) pre))
      as [_|Hc]; [done|].
    destruct Hc. intros Hin. apply Hs. right. by apply Hcan.
  - destruct (queue s) as [|t' rest] eqn:Hqueue; [done|].
    case_bool_decide as Hc; [|done]. destruct Hc as [-> Hlt].
    injection Hstep as <-. simpl.
    do 3 (split; [done|]). split; [by rewrite <- app_assoc|].
    assert (Hempty : workers s = ∅).
    { apply map_size_empty_inv. unfold max_workers in Hlt. lia. }
    assert (waiting = []) as ->.
    { destruct waiting as [|w ?]; [done|].
      assert (Hin : workers s !! w = Some AtLock) by (apply Hw; by left).
      by rewrite Hempty, lookup_empty in Hin. }
    rewrite app_nil_r in Hst. exists [t]. split; [by rewrite Hst|].
    split; [simpl; lia|]. intros t'. rewrite Hempty, list_elem_of_singleton.
    destruct (decide (t' = t)) as [->|Hne].
    + by rewrite lookup_insert_eq.
    + rewrite lookup_insert_ne, lookup_empty by done. naive_solver.
  - destruct (workers s !! t) as [[]|] eqn:Ht; [|done..].
    destruct (_chat_lock s); [done|]. injection Hstep as <-. simpl.
    do 4 (split; [done|]).
    assert (waiting = [t]) as ->.
    { apply Hw in Ht. destruct waiting as [|w [|? ?]]; simpl in Hlen; [|  |lia].
      - by apply elem_of_nil in Ht.
      - by apply list_elem_of_singleton in Ht as ->. }
    exists []. split; [by rewrite app_nil_r|]. split; [simpl; lia|].
    intros t'. destruct (decide (t' = t)) as [->|Hne].
    + rewrite lookup_insert_eq. split; [done|]. by intros ?%elem_of_nil.
    + rewrite lookup_insert_ne by done. rewrite Hw, list_elem_of_singleton.
      split; [done|]. by intros ?%elem_of_nil.
  - destruct (workers s !! t) as [[]|] eqn:Ht; [done| |done].
    injection Hstep as <-. simpl. do 4 (split; [done|]).
    exists waiting. do 2 (split; [done|]).
    intros t'. destruct (decide (t' = t)) as [->|Hne].
    + rewrite lookup_delete_eq. split; [done|].
      intros Hin%Hw. congruence.
    + by rewrite lookup_delete_ne.
  - case_bool_decide as Hin; [|done]. injection Hstep as <-. simpl.
    split; [done|]. split; [done|]. split.
    { intros x [Hx| ->%list_elem_of_singleton]%elem_of_app; [by apply Hcan'|].
      simpl. set_solver. }
    split; [|by exists waiting].
    set (started := omap (λ l, if l is Start t then Some t else None) pre) in *.
    set (cancelled_before :=
           omap (λ l, if l is Cancel t then Some t else None) pre) in *.
    set (asked := omap (λ l, if l is Submit t then Some t else None) pre) in *.
    assert (Hndk : NoDup (started ++ queue s)).
    { rewrite Hq. by apply NoDup_filter. }
    apply NoDup_app in Hndk as (_ & Hdisj & _).
    assert (Hout : t ∉ started) by (intros Hs; by apply (Hdisj t Hs)).
    rewrite <- (filter_other t started Hout) at 1.
    rewrite <- filter_app, Hq, list_filter_filter.
    apply list_filter_iff. intros x. rewrite elem_of_app, list_elem_of_singleton.
    naive_solver.
Qed.

Lemma run_order (ls pre : list label) (s s' : state) :
  order_inv pre s → run max_workers s ls = Some s' → order_inv (pre ++ ls) s'.
Proof.
  revert pre s. induction ls as [|l ls IH]; intros pre s Hinv Hrun;
    simpl in Hrun.
  - injection Hrun as <-. by rewrite app_nil_r.
  - destruct (step max_workers s l) as [s1|] eqn:Hs; [|done].
    replace (pre ++ l :: ls) with ((pre ++ [l]) ++ ls)
      by (by rewrite <- app_assoc).
    apply (IH _ s1); [|done]. by apply (step_order pre s).
Qed.

Lemma init_order : order_inv [] init.
Proof.
  split; [constructor|]. split; [by intros t ?%elem_of_nil|].
  split; [by intros t ?%elem_of_nil|]. split; [done|].
  exists []. split; [done|]. split; [simpl; lia|].
  intros t. simpl. rewrite lookup_empty. split; [done|]. by intros ?%elem_of_nil.
Qed.

(** With the single worker of the bridge's executor at most one turn is
    started and not finished, so a turn that reaches the chat lock finds
    it free and enters: turns wait in the executor's queue, never at the
    lock. *)
Theorem single_worker_finds_lock_free (ls : list label) (s : state) :
  run max_workers init ls = Some s →
  (size (workers s) ≤ 1)%nat
  ∧ ∀ t, workers s !! t = Some AtLock →
      _chat_lock s = None ∧ is_Some (step max_workers s (Acquire t)).
Proof.
  intros Hrun.
  assert (Hsize : (size (workers s) ≤ 1)%nat).
  { apply (run_workers max_workers ls init s); [|done]. simpl.
    rewrite map_size_empty. lia. }
  split; [done|]. intros t Ht.
  destruct init_inv as [Hl0 Ht0].
  destruct (run_inv max_workers ls init s Hl0 Ht0 Hrun) as [Hl _].
  assert (Hfree : _chat_lock s = None).
  { destruct (_chat_lock s) as [t'|] eqn:Hlock; [|done].
    apply Hl in Hlock. unfold in_agent in Hlock.
    assert (t = t') by (apply (single_entry (workers s)); eauto).
    congruence. }
  split; [done|]. simpl. by rewrite Ht, Hfree.
Qed.

Lemma single_worker_finds_lock_free_witness :
  run max_workers init two_turns = Some second_in_agent
  ∧ (size (workers second_in_agent) ≤ 1)%nat.
Proof.
  assert (Hrun : run max_workers init two_turns = Some second_in_agent)
    by (vm_compute; reflexivity).
  split; [exact Hrun|].
  exact (proj1 (single_worker_finds_lock_free two_turns second_in_agent Hrun)).
Defined.

(** With the single worker of the bridge's executor the chat turns are
    started, and let into the agent, in the order they were submitted,
    those cancelled while queued left out: the turns started followed by
    those still queued are the turns submitted and not cancelled, in the
    order submitted, and the turns let into the agent are the first of
    them. *)
Theorem turns_enter_in_submission_order (ls : list label) (s : state) :
  run max_workers init ls = Some s →
  starts ls ++ queue s = kept ls
  ∧ acquires ls `prefix_of` starts ls
  ∧ acquires ls `prefix_of` kept ls
  ∧ kept ls `sublist_of` submits ls.
Proof.
  intros Hrun.
  destruct (run_order ls [] init s init_order Hrun)
    as (_ & _ & _ & Hq & waiting & Hst & _).
  simpl in Hq, Hst. split; [done|]. split; [by exists waiting|].
  split; [|apply sublist_filter].
  exists (waiting ++ queue s). by rewrite app_assoc, <- Hst.
Qed.

Lemma turns_enter_in_submission_order_witness :
  run max_workers init (second_dropped ++ [Submit 3; Start 3; Acquire 3])
  = Some {| queue := []; workers := {[3%nat := InAgent]};
            finished := {[1%nat]}; cancelled := {[2%nat]};
            _chat_lock := Some 3%nat |}
  ∧ acquires (second_dropped ++ [Submit 3; Start 3; Acquire 3])
    `prefix_of` kept (second_dropped ++ [Submit 3; Start 3; Acquire 3]).
Proof.
  assert (Hrun : run max_workers init
                   (second_dropped ++ [Submit 3; Start 3; Acquire 3])
                 = Some {| queue := []; workers := {[3%nat := InAgent]};
                           finished := {[1%nat]}; cancelled := {[2%nat]};
                           _chat_lock := Some 3%nat |})
    by (vm_compute; reflexivity).
  split; [exact Hrun|].
  exact (proj1 (proj2 (proj2
    (turns_enter_in_submission_order _ _ Hrun)))).
Defined.

End ExecutorFacts.
